(** * The Tetris state-transition engine of [src/main.ts]

    A shallow embedding of the reducer of the game (the pure functions from
    [State] to [State] that [main] folds over the action stream with
    [scan]) and of the helpers it calls: collision detection, placement of
    a landed piece, line clearing, scoring and the piece generator.

    Conventions of the embedding.
    - A TypeScript [number] that only ever holds an integer is a [Z].  The
      two agree as long as the integers stay within 2^53, which the
      values of a game do; a property stated for arbitrary coordinates or
      scores carries that bound as a hypothesis.
    - Arrays are lists.  Reading [a[i]] gives [undefined] when [i] is
      negative or past the end: [index] returns [None] there.
    - A function that may raise an uncaught [TypeError] (a property read on
      [undefined]) returns a [js A]: [Val a] or [Throws].
    - [Math.random] is not modelled: the values it produces are inputs. *)

From stdpp Require Import base numbers option list strings relations.

Open Scope Z_scope.

(** ** Results of JavaScript evaluation *)

Inductive js (A : Type) : Type :=
| Val (a : A)
| Throws.
Arguments Val {A} a.
Arguments Throws {A}.

Definition js_bind {A B : Type} (m : js A) (k : A -> js B) : js B :=
  match m with
  | Val a => k a
  | Throws => Throws
  end.

Notation "'let*' v ':=' m 'in' k" := (js_bind m (fun v => k))
  (at level 10, v name, m at level 100, k at level 200).

(** JavaScript's [a[i]] for an integer index. *)
Definition index {A : Type} (l : list A) (i : Z) : option A :=
  if decide (0 <= i) then l !! Z.to_nat i else None.

(** [Array.prototype.some] with a callback that may throw: elements are
    visited in order, the first truthy answer stops the scan, and an
    exception raised by the callback escapes. *)
Fixpoint some {A : Type} (f : A -> js bool) (l : list A) : js bool :=
  match l with
  | [] => Val false
  | a :: l' =>
      match f a with
      | Throws => Throws
      | Val true => Val true
      | Val false => some f l'
      end
  end.

(** [row.some((_, i) => p i)]: only the index of the element is used. *)
Definition some_index {A : Type} (p : nat -> bool) (l : list A) : bool :=
  existsb (fun b : bool => b) (imap (fun i _ => p i) l).

(** ** Constants and the data model *)

Module Constants.
Definition TICK_RATE_MS : Z := 500.
Definition GRID_WIDTH : Z := 10.
Definition GRID_HEIGHT : Z := 20.
End Constants.

Record Block : Type := mkBlock { x : Z; y : Z; color : string }.

Abbreviation Tetrimino := (list Block).

Abbreviation Grid := (list (list bool)).

Record State : Type := mkState {
  grid : Grid;
  currentTetrimino : Tetrimino;
  nextTetrimino : Tetrimino;
  gameOver : bool;
  userScore : Z;
  userLevel : Z;
  highScore : Z;
  paused : bool
}.

(** [{ ...block, x: block.x + dx, y: block.y + dy }] *)
Definition shift (dx dy : Z) (block : Block) : Block :=
  {| x := x block + dx; y := y block + dy; color := color block |}.

(** The module-level gold template (a single block). *)
Definition goldTetrimino : Tetrimino :=
  [ {| x := 0; y := 0; color := "gold" |} ].

(** ** Collision detection *)

(** The callback of [isCollisionDetected]:
    [block.y >= GRID_HEIGHT || grid[block.y][block.x]].  When [grid[block.y]]
    is [undefined] the read of its [block.x] property throws; an
    [undefined] cell is falsy. *)
Definition blockCollides (grid : Grid) (block : Block) : js bool :=
  if decide (Constants.GRID_HEIGHT <= y block) then Val true
  else
    match index grid (y block) with
    | None => Throws
    | Some row => Val (default false (index row (x block)))
    end.

Definition isCollisionDetected (movedTetrimino : Tetrimino) (grid : Grid) : js bool :=
  some (blockCollides grid) movedTetrimino.

(** [willExceedEdges] reads [grid[0].length] first, which throws on a grid
    without rows. *)
Definition willExceedEdges (tetrimino : Tetrimino) (grid : Grid) : js bool :=
  match index grid 0 with
  | None => Throws
  | Some row0 =>
      let gridWidth := Z.of_nat (length row0) in
      let gridHeight := Z.of_nat (length grid) in
      Val (existsb (fun b =>
             (x b <? 0) || (gridWidth <=? x b) || (gridHeight <=? y b)) tetrimino)
  end.

(** ** Placement and line clearing *)

(** [placeTetrimino]: a [reduce] over the blocks; each step rebuilds the grid
    with [map], comparing row and column indices with the block. *)
Definition placeBlock (newGrid : Grid) (block : Block) : Grid :=
  imap (fun rowIndex row =>
          if decide (Z.of_nat rowIndex = y block)
          then imap (fun colIndex cell =>
                       if decide (Z.of_nat colIndex = x block) then true else cell) row
          else row) newGrid.

Definition placeTetrimino (tetrimino : Tetrimino) (grid : Grid) : Grid :=
  foldl placeBlock grid tetrimino.

(** The accumulator and the result of [clearLines] have the same shape,
    [{ grid, linesCleared, goldLineCleared }]; the grid field is named
    [rows] here because [grid] is the field of [State]. *)
Record Cleared : Type := mkCleared {
  rows : Grid;
  linesCleared : Z;
  goldLineCleared : bool
}.

Definition every (row : list bool) : bool := forallb (fun cell : bool => cell) row.

Definition clearStep (goldTetrimino : Tetrimino) (state : Cleared) (row : list bool) : Cleared :=
  if every row then
    let gold :=
      some_index (fun i =>
        existsb (fun block =>
          bool_decide (x block = Z.of_nat i) && bool_decide (y block = linesCleared state))
          goldTetrimino) row in
    {| rows := rows state;
       linesCleared := linesCleared state + 1;
       goldLineCleared := gold || goldLineCleared state |}
  else
    {| rows := rows state ++ [row];
       linesCleared := linesCleared state;
       goldLineCleared := goldLineCleared state |}.

Definition emptyRow (len : nat) : list bool := replicate len false.

(** [Array(n).fill(r)] puts the same row object [n] times; nothing in the
    program updates a row in place, so the sharing cannot be observed. *)
Definition clearLines (grid : Grid) (goldTetrimino : Tetrimino) : js Cleared :=
  let result := foldl (clearStep goldTetrimino)
                      {| rows := []; linesCleared := 0; goldLineCleared := false |} grid in
  match index grid 0 with
  | None => Throws
  | Some row0 =>
      let emptyRows := replicate (Z.to_nat (linesCleared result)) (emptyRow (length row0)) in
      Val {| rows := emptyRows ++ rows result;
             linesCleared := linesCleared result;
             goldLineCleared := goldLineCleared result |}
  end.

(** ** Landing: scoring, levelling and promotion of the next piece *)

(** [processCollision].  The call of [generateANewTetrimino] in its body
    binds [newNextTetrimino], which is never read, so no generated piece is
    an input here. *)
Definition processCollision (s : State) : js State :=
  if paused s then Val s
  else
    let newGrid := placeTetrimino (currentTetrimino s) (grid s) in
    let* r := clearLines newGrid goldTetrimino in
    let newScore := userScore s + linesCleared r * 100 in
    let goldLines :=
      filter (fun block => y block = linesCleared r - 1) goldTetrimino in
    let goldScoreIncrease :=
      if goldLineCleared r then Z.of_nat (length goldLines) * 200 else 0 in
    let newHighScore := Z.max (highScore s) (newScore + goldScoreIncrease) in
    let newLevel := newScore / 1000 + 1 in
    let newTetrimino := nextTetrimino s in
    let* collides := isCollisionDetected newTetrimino (rows r) in
    Val (if collides : bool
         then {| grid := grid s;
                 currentTetrimino := currentTetrimino s;
                 nextTetrimino := nextTetrimino s;
                 gameOver := true;
                 userScore := newScore + goldScoreIncrease;
                 userLevel := userLevel s;
                 highScore := newHighScore;
                 paused := paused s |}
         else {| grid := rows r;
                 currentTetrimino := newTetrimino;
                 nextTetrimino := newTetrimino;
                 gameOver := false;
                 userScore := newScore + goldScoreIncrease;
                 userLevel := newLevel;
                 highScore := newHighScore;
                 paused := paused s |}).

(** [{ ...s, nextTetrimino }] *)
Definition withNext (next : Tetrimino) (s : State) : State :=
  {| grid := grid s;
     currentTetrimino := currentTetrimino s;
     nextTetrimino := next;
     gameOver := gameOver s;
     userScore := userScore s;
     userLevel := userLevel s;
     highScore := highScore s;
     paused := paused s |}.

(** [{ ...s, currentTetrimino }] *)
Definition withCurrent (current : Tetrimino) (s : State) : State :=
  {| grid := grid s;
     currentTetrimino := current;
     nextTetrimino := nextTetrimino s;
     gameOver := gameOver s;
     userScore := userScore s;
     userLevel := userLevel s;
     highScore := highScore s;
     paused := paused s |}.

(** [{ ...s, paused }] *)
Definition withPaused (p : bool) (s : State) : State :=
  {| grid := grid s;
     currentTetrimino := currentTetrimino s;
     nextTetrimino := nextTetrimino s;
     gameOver := gameOver s;
     userScore := userScore s;
     userLevel := userLevel s;
     highScore := highScore s;
     paused := p |}.

(** ** The piece generator *)

Definition mk (c : string) (bx b_y : Z) : Block := {| x := bx; y := b_y; color := c |}.

Definition shapes : list Tetrimino :=
  [ [ mk "cyan" 0 0; mk "cyan" 0 1; mk "cyan" 0 2; mk "cyan" 0 3 ];
    [ mk "yellow" 0 0; mk "yellow" 1 0; mk "yellow" 0 1; mk "yellow" 1 1 ];
    [ mk "blue" 1 0; mk "blue" 2 0; mk "blue" 0 1; mk "blue" 1 1 ];
    [ mk "green" 0 0; mk "green" 1 0; mk "green" 1 1; mk "green" 2 1 ];
    [ mk "orange" 0 0; mk "orange" 0 1; mk "orange" 0 2; mk "orange" 1 2 ];
    [ mk "red" 0 0; mk "red" 0 1; mk "red" 0 2; mk "red" 1 2 ];
    [ mk "purple" 1 0; mk "purple" 0 1; mk "purple" 1 1; mk "purple" 2 1 ] ].

(** [generateANewTetrimino], as a function of its two random draws:
    [shapeIndex = Math.floor(Math.random() * shapes.length)] and
    [randomChance = Math.floor(Math.random() * 101)].  [shapes[shapeIndex]]
    is read only in the branch that returns it. *)
Definition generateANewTetrimino (shapeIndex randomChance : Z) : js Tetrimino :=
  let xOffset := (Constants.GRID_WIDTH - 2) / 2 in
  let yOffset := 0 in
  let goldTetrimino : Tetrimino :=
    [ mk "gold" (xOffset + 0) 0; mk "gold" (xOffset + 0) 1;
      mk "gold" (xOffset + 1) 1; mk "gold" (xOffset + 1) 2 ] in
  let x2Offset := (Constants.GRID_WIDTH - 10) / 2 in
  if decide (randomChance <= 5) then
    Val (map (shift x2Offset yOffset) goldTetrimino)
  else
    match index shapes shapeIndex with
    | None => Throws
    | Some shape => Val (map (shift xOffset yOffset) shape)
    end.

(** The pieces the generator can return: the draws range over
    [0 .. shapes.length - 1] and [0 .. 100]. *)
Definition generated (t : Tetrimino) : Prop :=
  exists shapeIndex randomChance,
    (0 <= shapeIndex < Z.of_nat (length shapes)) /\
    (0 <= randomChance <= 100) /\
    generateANewTetrimino shapeIndex randomChance = Val t.

(** ** The actions

    Each class of the source has one method, [apply]; [C_apply] is the
    method of class [C].  A piece returned by a call of
    [generateANewTetrimino] whose result is used is the argument
    [generatedNext]. *)

(** [{ ...block, x: block.x - 1 }] and its three siblings. *)
Definition left (block : Block) : Block :=
  {| x := x block - 1; y := y block; color := color block |}.
Definition right (block : Block) : Block :=
  {| x := x block + 1; y := y block; color := color block |}.
Definition down (block : Block) : Block :=
  {| x := x block; y := y block + 1; color := color block |}.
Definition up (block : Block) : Block :=
  {| x := x block; y := y block - 1; color := color block |}.

Definition moveTetriminoLeft_apply (s : State) : js State :=
  let newTetrimino := map left (currentTetrimino s) in
  let isLeftCollision := existsb (fun block => x block <? 0) newTetrimino in
  let* isGridCollision := isCollisionDetected newTetrimino (grid s) in
  Val (if isLeftCollision || isGridCollision then s
       else withCurrent newTetrimino s).

Definition moveTetriminoRight_apply (s : State) : js State :=
  let newTetrimino := map right (currentTetrimino s) in
  let isRightCollision :=
    existsb (fun block => Constants.GRID_WIDTH <=? x block) newTetrimino in
  let* isGridCollision := isCollisionDetected newTetrimino (grid s) in
  Val (if isRightCollision || isGridCollision then s
       else withCurrent newTetrimino s).

Definition moveTetriminoDown_apply (generatedNext : Tetrimino) (s : State) : js State :=
  let newTetrimino := map down (currentTetrimino s) in
  let* isGridCollision := isCollisionDetected newTetrimino (grid s) in
  if isGridCollision : bool
  then let* landed := processCollision s in Val (withNext generatedNext landed)
  else Val (withNext generatedNext (withCurrent newTetrimino s)).

(** [tetrimino[0]] is [undefined] for a piece without blocks, but then the
    callback of [map] never runs. *)
Definition rotateTetrimino (tetrimino : Tetrimino) : Tetrimino :=
  match tetrimino with
  | [] => []
  | origin :: _ =>
      map (fun block =>
             {| x := x origin - (y block - y origin);
                y := y origin + (x block - x origin);
                color := color block |}) tetrimino
  end.

Definition Rotate_apply (s : State) : js State :=
  let rotatedTetrimino := rotateTetrimino (currentTetrimino s) in
  let* isGridCollision := isCollisionDetected rotatedTetrimino (grid s) in
  let* willExceedEdgesCondition := willExceedEdges rotatedTetrimino (grid s) in
  Val (if isGridCollision || willExceedEdgesCondition then s
       else withCurrent rotatedTetrimino s).

(** The [while] loop of [instantDROP.apply], with fuel: [None] when the
    fuel ran out before the loop left. *)
Fixpoint dropLoop (fuel : nat) (newTetrimino : Tetrimino) (grid : Grid)
  : option (js Tetrimino) :=
  match fuel with
  | O => None
  | S fuel' =>
      match isCollisionDetected newTetrimino grid with
      | Throws => Some Throws
      | Val true => Some (Val newTetrimino)
      | Val false => dropLoop fuel' (map down newTetrimino) grid
      end
  end.

Definition instantDROP_apply (fuel : nat) (generatedNext : Tetrimino) (s : State)
  : option (js State) :=
  match dropLoop fuel (currentTetrimino s) (grid s) with
  | None => None
  | Some Throws => Some Throws
  | Some (Val dropped) =>
      let newTetrimino := map up dropped in
      Some (let* collides := isCollisionDetected newTetrimino (grid s) in
            if collides : bool
            then let* landed := processCollision s in Val (withNext generatedNext landed)
            else Val (withNext generatedNext (withCurrent newTetrimino s)))
  end.

(** [TogglePauseResume] keeps a private field [isPaused]; [apply] reads and
    writes it.  The method maps the field and the state to the new state and
    the new value of the field.  [main] builds a new instance, whose field
    is [false], for every press of the key. *)
Definition TogglePauseResume_apply (isPaused : bool) (s : State) : State * bool :=
  if negb isPaused
  then (withPaused true s, true)
  else (withPaused false s, false).

Definition TogglePauseResume_new : bool := false.

Definition Tick_apply (elapsed : Z) (generatedNext : Tetrimino) (s : State) : js State :=
  let movedTetrimino := map down (currentTetrimino s) in
  let* collides := isCollisionDetected movedTetrimino (grid s) in
  if collides : bool
  then let* landed := processCollision s in Val (withNext generatedNext landed)
  else Val (withNext generatedNext (withCurrent movedTetrimino s)).

(** ** The reducer, from the state built when the module is loaded *)

Section Reducer.

(** The two pieces drawn when [initialState] is evaluated. *)
Variables initialCurrent initialNext : Tetrimino.

Definition initialState : State :=
  {| grid := replicate 20 (replicate 10 false);
     currentTetrimino := initialCurrent;
     nextTetrimino := initialNext;
     gameOver := false;
     userScore := 0;
     userLevel := 1;
     highScore := 0;
     paused := false |}.

(** [{ ...initialState, highScore: s.highScore }] *)
Definition Restart_apply (s : State) : State :=
  {| grid := grid initialState;
     currentTetrimino := currentTetrimino initialState;
     nextTetrimino := nextTetrimino initialState;
     gameOver := gameOver initialState;
     userScore := userScore initialState;
     userLevel := userLevel initialState;
     highScore := highScore s;
     paused := paused initialState |}.

(** One action applied by [scan]: the action returned a state.  An action
    that throws, or a drop that never leaves its loop, produces none. *)
Inductive step : State -> State -> Prop :=
| step_Tick elapsed next s s' :
    generated next -> Tick_apply elapsed next s = Val s' -> step s s'
| step_Left s s' :
    moveTetriminoLeft_apply s = Val s' -> step s s'
| step_Right s s' :
    moveTetriminoRight_apply s = Val s' -> step s s'
| step_Down next s s' :
    generated next -> moveTetriminoDown_apply next s = Val s' -> step s s'
| step_Rotate s s' :
    Rotate_apply s = Val s' -> step s s'
| step_Drop fuel next s s' :
    generated next -> instantDROP_apply fuel next s = Some (Val s') -> step s s'
| step_Restart s :
    step s (Restart_apply s)
| step_Toggle isPaused s :
    step s (fst (TogglePauseResume_apply isPaused s)).

Definition reachable (s : State) : Prop := rtc step initialState s.

End Reducer.

(** The grid invariant of the data model. *)
Definition wellFormed (g : Grid) : Prop :=
  Z.of_nat (length g) = Constants.GRID_HEIGHT /\
  Forall (fun row => Z.of_nat (length row) = Constants.GRID_WIDTH) g.

(** ** Vocabulary of the properties *)

(** A row is complete when every cell of it is occupied. *)
Definition complete (row : list bool) : Prop := Forall (fun cell => cell = true) row.

(** Invariant of the [reduce] of [clearLines] with the one-block template:
    the flag is set exactly when a line has been counted. *)
Definition goldInv (state : Cleared) : Prop :=
  0 <= linesCleared state /\
  (goldLineCleared state = true <-> 1 <= linesCleared state).

(** The cell of the grid at a block's (row, column), [false] when there is
    none. *)
Definition occupied (g : Grid) (block : Block) : bool :=
  match index g (y block) with
  | Some row => default false (index row (x block))
  | None => false
  end.

(** The grid has [GRID_HEIGHT] rows (of any width). *)
Definition tall (g : Grid) : Prop := Z.of_nat (length g) = Constants.GRID_HEIGHT.

(** The piece moved down [k] rows, one row at a time. *)
Fixpoint descend (k : nat) (t : Tetrimino) : Tetrimino :=
  match k with
  | O => t
  | S k' => descend k' (map down t)
  end.

(** The drop as the specification words it: it ends with the landing
    sequence run on the dropped piece, in the same transition. *)
Definition landsOnDrop (s : State) (next : Tetrimino) : Prop :=
  exists (k fuel : nat) (landed : State),
    processCollision (withCurrent (descend k (currentTetrimino s)) s) = Val landed /\
    instantDROP_apply fuel next s = Some (Val (withNext next landed)).

(** ** Concrete inputs *)

(** Pieces as the generator returns them. *)
Definition cyanPiece : Tetrimino :=
  [ mk "cyan" 4 0; mk "cyan" 4 1; mk "cyan" 4 2; mk "cyan" 4 3 ].
Definition yellowPiece : Tetrimino :=
  [ mk "yellow" 4 0; mk "yellow" 5 0; mk "yellow" 4 1; mk "yellow" 5 1 ].
Definition bluePiece : Tetrimino :=
  [ mk "blue" 5 0; mk "blue" 6 0; mk "blue" 4 1; mk "blue" 5 1 ].

(** A cyan piece that has been moved to the left wall and down to the floor. *)
Definition cyanAtFloor : Tetrimino :=
  [ mk "cyan" 0 16; mk "cyan" 0 17; mk "cyan" 0 18; mk "cyan" 0 19 ].

Definition emptyGrid : Grid := replicate 20 (replicate 10 false).

(** The game right after the pause key was pressed for the first time. *)
Definition pausedGame : State :=
  fst (TogglePauseResume_apply TogglePauseResume_new (initialState cyanPiece yellowPiece)).

(** Bottom row complete but for its first cell, the piece about to fill it,
    800 points on the board. *)
Definition lastCellGame : State :=
  {| grid := replicate 19 (replicate 10 false) ++ [false :: replicate 9 true];
     currentTetrimino := cyanAtFloor;
     nextTetrimino := yellowPiece;
     gameOver := false;
     userScore := 800;
     userLevel := 1;
     highScore := 800;
     paused := false |}.

(** A cell of the spawn area is occupied: the promoted piece collides. *)
Definition blockedSpawnGame : State :=
  {| grid := [replicate 10 false; <[4%nat := true]> (replicate 10 false)]
             ++ replicate 18 (replicate 10 false);
     currentTetrimino := cyanAtFloor;
     nextTetrimino := cyanPiece;
     gameOver := false;
     userScore := 0;
     userLevel := 1;
     highScore := 0;
     paused := false |}.

(** Closes the goals where an action returned its input with pieces replaced. *)
Ltac same_grid :=
  match goal with
  | H : Val _ = Val _ |- _ => injection H as <-; try destruct (_ || _); simpl; assumption
  end.

(** ** Vocabulary of the further properties *)

(** The cell of a grid at row [i] and column [j], if there is one. *)
Definition cell (g : Grid) (i j : nat) : option bool :=
  match g !! i with
  | Some row => row !! j
  | None => None
  end.

(** The block lies on row [i] and column [j]. *)
Definition covers (i j : nat) (block : Block) : bool :=
  bool_decide (y block = Z.of_nat i) && bool_decide (x block = Z.of_nat j).

(** The block is inside the columns and the rows of the grid. *)
Definition inGrid (block : Block) : Prop :=
  (0 <= x block < Constants.GRID_WIDTH) /\ (0 <= y block < Constants.GRID_HEIGHT).

(** The quarter turn of [rotateTetrimino] about a given origin. *)
Definition turn (origin block : Block) : Block :=
  {| x := x origin - (y block - y origin);
     y := y origin + (x block - x origin);
     color := color block |}.

(** What the reducer maintains: a 20 x 10 grid without complete rows, a
    current piece of four blocks inside the columns that does not collide
    with the grid, a preview of four blocks inside the grid, and scores in
    order. *)
Definition playable (s : State) : Prop :=
  wellFormed (grid s) /\
  Forall (fun row => ~ complete row) (grid s) /\
  isCollisionDetected (currentTetrimino s) (grid s) = Val false /\
  Forall (fun block => 0 <= x block < Constants.GRID_WIDTH) (currentTetrimino s) /\
  length (currentTetrimino s) = 4%nat /\
  Forall inGrid (nextTetrimino s) /\
  length (nextTetrimino s) = 4%nat /\
  (0 <= userScore s <= highScore s) /\
  1 <= userLevel s.

(** The start of a game after four accepted moves to the left: the cyan
    piece stands against the left wall. *)
Definition leftWallGame : State :=
  withCurrent [ mk "cyan" 0 0; mk "cyan" 0 1; mk "cyan" 0 2; mk "cyan" 0 3 ]
    (initialState cyanPiece yellowPiece).

(** Everything of a state but its two pieces is the same in both states. *)
Definition sameBoard (s s' : State) : Prop :=
  grid s' = grid s /\
  gameOver s' = gameOver s /\
  userScore s' = userScore s /\
  userLevel s' = userLevel s /\
  highScore s' = highScore s /\
  paused s' = paused s.

(** The largest integer below which every integer is a double
    ([Number.MAX_SAFE_INTEGER], 2^53 - 1): on integers within this bound
    the additions and subtractions of the code are exact, and so are the
    same operations on [Z]. *)
Definition MAX_SAFE_INTEGER : Z := 9007199254740991.

(** Coordinates of absolute value at most 2^51. *)
Definition smallCoordinates (t : Tetrimino) : Prop :=
  Forall (fun block =>
            Z.abs (x block) <= 2251799813685248 /\
            Z.abs (y block) <= 2251799813685248) t.

(** Every number that the callback of [rotateTetrimino] computes for the
    block, the two differences and the two new coordinates, is a safe
    integer. *)
Definition exactTurn (origin block : Block) : Prop :=
  Z.abs (y block - y origin) <= MAX_SAFE_INTEGER /\
  Z.abs (x block - x origin) <= MAX_SAFE_INTEGER /\
  Z.abs (x origin - (y block - y origin)) <= MAX_SAFE_INTEGER /\
  Z.abs (y origin + (x block - x origin)) <= MAX_SAFE_INTEGER.

(** A rotation of the piece computes safe integers only. *)
Definition exactRotation (t : Tetrimino) : Prop :=
  match t with
  | [] => True
  | origin :: _ => Forall (exactTurn origin) t
  end.

(** Splits a goal [playable _] into its fields and closes the ones at hand. *)
Ltac playable_fields :=
  unfold playable; simpl;
  repeat match goal with |- _ /\ _ => split end;
  try assumption; try lia.

(** The same for goals about the high score. *)
Ltac same_highScore :=
  match goal with
  | H : Val _ = Val _ |- _ =>
      injection H as <-; try destruct (_ || _); simpl; lia
  end.

(** * Properties *)

(** ** Line clearing *)

Lemma every_complete (row : list bool) : every row = true <-> complete row.
Proof.
  unfold every, complete. induction row as [|cell row IH]; simpl.
  - split; [constructor | reflexivity].
  - rewrite Forall_cons, andb_true_iff, IH. reflexivity.
Qed.

Lemma every_not_complete (row : list bool) : every row = false <-> ~ complete row.
Proof.
  rewrite <- every_complete. destruct (every row); split; congruence.
Qed.

Section ClearLoop.

Variable gold : Tetrimino.

Lemma clearStep_complete (state : Cleared) (row : list bool) :
  complete row ->
  rows (clearStep gold state row) = rows state /\
  linesCleared (clearStep gold state row) = linesCleared state + 1.
Proof.
  intros Hc. apply every_complete in Hc. unfold clearStep. rewrite Hc. auto.
Qed.

Lemma clearStep_incomplete (state : Cleared) (row : list bool) :
  ~ complete row ->
  clearStep gold state row =
    {| rows := rows state ++ [row];
       linesCleared := linesCleared state;
       goldLineCleared := goldLineCleared state |}.
Proof.
  intros Hc. apply every_not_complete in Hc. unfold clearStep. rewrite Hc. reflexivity.
Qed.

(** The [reduce] of [clearLines], from any accumulator: complete rows are
    counted, the others are appended in order. *)
Lemma clearLoop_rows (g : Grid) (acc : Cleared) :
  rows (foldl (clearStep gold) acc g) =
    rows acc ++ filter (fun row => ~ complete row) g.
Proof.
  revert acc. induction g as [|row g IH]; intros acc; simpl.
  - rewrite app_nil_r. reflexivity.
  - rewrite IH. destruct (decide (complete row)) as [Hc|Hc].
    + rewrite (filter_cons_False (fun r => ~ complete r) row g) by tauto.
      destruct (clearStep_complete acc row Hc) as [-> _]. reflexivity.
    + rewrite (filter_cons_True (fun r => ~ complete r) row g) by assumption.
      rewrite (clearStep_incomplete acc row Hc). simpl.
      rewrite <- app_assoc. reflexivity.
Qed.

Lemma clearLoop_count (g : Grid) (acc : Cleared) :
  linesCleared (foldl (clearStep gold) acc g) =
    linesCleared acc + Z.of_nat (length (filter complete g)).
Proof.
  revert acc. induction g as [|row g IH]; intros acc; simpl.
  - lia.
  - rewrite IH. destruct (decide (complete row)) as [Hc|Hc].
    + rewrite (filter_cons_True complete row g) by assumption.
      destruct (clearStep_complete acc row Hc) as [_ ->]. simpl length. lia.
    + rewrite (filter_cons_False complete row g) by assumption.
      rewrite (clearStep_incomplete acc row Hc). reflexivity.
Qed.

End ClearLoop.

Lemma filter_split_length (g : Grid) :
  (length (filter complete g) + length (filter (fun row => ~ complete row) g))%nat
  = length g.
Proof.
  induction g as [|row g IH]; [reflexivity|].
  destruct (decide (complete row)) as [Hc|Hc].
  - rewrite (filter_cons_True complete row g) by assumption.
    rewrite (filter_cons_False (fun row => ~ complete row) row g) by tauto.
    simpl. lia.
  - rewrite (filter_cons_False complete row g) by assumption.
    rewrite (filter_cons_True (fun row => ~ complete row) row g) by assumption.
    simpl. lia.
Qed.

(** What [clearLines] returns on a grid with a first row. *)
Lemma clearLines_eq (row0 : list bool) (g : Grid) (gold : Tetrimino) :
  clearLines (row0 :: g) gold =
    Val {| rows := replicate (length (filter complete (row0 :: g)))
                             (emptyRow (length row0))
                   ++ filter (fun row => ~ complete row) (row0 :: g);
           linesCleared := Z.of_nat (length (filter complete (row0 :: g)));
           goldLineCleared :=
             goldLineCleared
               (foldl (clearStep gold)
                  {| rows := []; linesCleared := 0; goldLineCleared := false |}
                  (row0 :: g)) |}.
Proof.
  unfold clearLines. change (index (row0 :: g) 0) with (Some row0). cbv zeta.
  rewrite clearLoop_rows, clearLoop_count. simpl rows. simpl linesCleared.
  rewrite Z.add_0_l, Nat2Z.id. reflexivity.
Qed.

(** C6. On a rectangular grid (at least one row, every row [w] cells wide)
    [clearLines] returns normally; with [k] the number of complete rows, it
    reports [linesCleared = k], and the grid it returns is [k] all-false rows
    of width [w] followed by the rows of the input that are not complete, in
    their order: the complete rows, and no others, are gone, [k] empty rows
    stand at the top, and the number of rows is unchanged. *)
Theorem clearLines_removes_complete_rows (g : Grid) (gold : Tetrimino) (w : nat) :
  g <> [] ->
  Forall (fun row => length row = w) g ->
  exists r : Cleared,
    clearLines g gold = Val r /\
    linesCleared r = Z.of_nat (length (filter complete g)) /\
    rows r = replicate (length (filter complete g)) (replicate w false)
             ++ filter (fun row => ~ complete row) g /\
    take (length (filter complete g)) (rows r)
      = replicate (length (filter complete g)) (replicate w false) /\
    length (rows r) = length g.
Proof.
  intros Hne Hrect. destruct g as [|row0 g]; [congruence|].
  assert (Hw : length row0 = w) by (inversion Hrect; assumption).
  eexists. split; [apply clearLines_eq|]. simpl rows. simpl linesCleared.
  unfold emptyRow. rewrite Hw.
  split; [reflexivity|]. split; [reflexivity|]. split.
  - rewrite take_app_length'; [reflexivity|]. symmetry. apply length_replicate.
  - rewrite length_app, length_replicate. apply filter_split_length.
Qed.

Lemma clearLines_removes_complete_rows_witness :
  exists r : Cleared,
    clearLines [[true; true]; [true; false]; [true; true]] goldTetrimino = Val r /\
    linesCleared r = 2 /\
    rows r = [[false; false]; [false; false]; [true; false]].
Proof.
  destruct (clearLines_removes_complete_rows
              [[true; true]; [true; false]; [true; true]] goldTetrimino 2)
    as (r & Hr & Hk & Hrows & _).
  - discriminate.
  - repeat constructor.
  - exists r. split; [exact Hr|]. split; [exact Hk|]. exact Hrows.
Defined.

(** ** The gold flag of [clearLines] *)

Lemma some_index_first {A : Type} (p : nat -> bool) (a : A) (l : list A) :
  p 0%nat = true -> some_index p (a :: l) = true.
Proof.
  intros Hp. unfold some_index. simpl. rewrite Hp. reflexivity.
Qed.

Lemma some_index_never {A : Type} (p : nat -> bool) (l : list A) :
  (forall i, p i = false) -> some_index p l = false.
Proof.
  unfold some_index. revert p. induction l as [|a l IH]; intros p Hp; simpl.
  - reflexivity.
  - rewrite Hp. simpl. apply (IH (fun i => p (S i))). intros i. apply Hp.
Qed.

(** The test of one complete row against the one-block template: it
    succeeds exactly when no line was counted before this row. *)
Lemma gold_test (n : Z) (row : list bool) :
  row <> [] ->
  some_index (fun i =>
    existsb (fun block =>
      bool_decide (x block = Z.of_nat i) && bool_decide (y block = n))
      goldTetrimino) row
  = bool_decide (n = 0).
Proof.
  intros Hrow. destruct row as [|cell row]; [congruence|].
  destruct (decide (n = 0)) as [->|Hn].
  - rewrite bool_decide_eq_true_2 by reflexivity. apply some_index_first. reflexivity.
  - rewrite bool_decide_eq_false_2 by assumption. apply some_index_never.
    intros i. simpl. rewrite orb_false_r. apply andb_false_intro2.
    apply bool_decide_eq_false_2. congruence.
Qed.

Lemma clearStep_goldInv (state : Cleared) (row : list bool) :
  row <> [] -> goldInv state -> goldInv (clearStep goldTetrimino state row).
Proof.
  intros Hrow [Hpos Hiff]. unfold clearStep.
  destruct (every row); [|split; assumption].
  rewrite (gold_test _ row Hrow). split; simpl; [lia|].
  rewrite orb_true_iff, bool_decide_eq_true, Hiff. lia.
Qed.

Lemma clearLoop_goldInv (g : Grid) (acc : Cleared) :
  Forall (fun row => row <> []) g ->
  goldInv acc -> goldInv (foldl (clearStep goldTetrimino) acc g).
Proof.
  intros Hrows. revert acc.
  induction Hrows as [|row g Hrow _ IH]; intros acc Hacc; simpl.
  - exact Hacc.
  - apply IH, clearStep_goldInv; assumption.
Qed.

Lemma complete_count_pos (g : Grid) :
  (1 <= length (filter complete g))%nat <-> Exists complete g.
Proof.
  induction g as [|row g IH].
  - split; [simpl; lia | intros H; inversion H].
  - rewrite filter_cons, Exists_cons. destruct (decide (complete row)) as [Hc|Hc].
    + simpl. split; [intros _; left; exact Hc | lia].
    + rewrite IH. tauto.
Qed.

(** C9. With the module's one-block gold template, on a grid with at least
    one row and no row of width zero, [clearLines] counts the complete rows
    of the grid and sets [goldLineCleared] exactly when it cleared at least
    one line, that is exactly when the grid has a complete row: every clear
    is reported as a gold-line clear, whatever formed the row. *)
Theorem clearLines_gold_iff_line_cleared (g : Grid) :
  g <> [] ->
  Forall (fun row => row <> []) g ->
  exists r : Cleared,
    clearLines g goldTetrimino = Val r /\
    linesCleared r = Z.of_nat (length (filter complete g)) /\
    (goldLineCleared r = true <-> 1 <= linesCleared r) /\
    (goldLineCleared r = true <-> Exists complete g).
Proof.
  intros Hne Hrows. destruct g as [|row0 g]; [congruence|].
  eexists. split; [apply clearLines_eq|]. simpl goldLineCleared. simpl linesCleared.
  destruct (clearLoop_goldInv (row0 :: g)
              {| rows := []; linesCleared := 0; goldLineCleared := false |} Hrows)
    as [_ Hiff].
  - split; simpl; [lia|]. split; [discriminate | lia].
  - rewrite clearLoop_count in Hiff. simpl linesCleared in Hiff.
    rewrite Z.add_0_l in Hiff.
    split; [reflexivity|]. split; [exact Hiff|].
    rewrite Hiff, <- complete_count_pos. lia.
Qed.

Lemma clearLines_gold_iff_line_cleared_witness :
  exists r : Cleared,
    clearLines [[false; true]; [true; true]] goldTetrimino = Val r /\
    linesCleared r = 1 /\
    goldLineCleared r = true.
Proof.
  destruct (clearLines_gold_iff_line_cleared [[false; true]; [true; true]])
    as (r & Hr & Hk & Hiff & _).
  - discriminate.
  - repeat constructor; discriminate.
  - exists r. split; [exact Hr|]. split; [exact Hk|].
    apply Hiff. rewrite Hk. vm_compute. discriminate.
Defined.

(** ** Collision detection *)

Lemma index_in_range {A : Type} (l : list A) (i : Z) :
  0 <= i < Z.of_nat (length l) -> is_Some (index l i).
Proof.
  intros Hi. unfold index. rewrite decide_True by lia.
  apply lookup_lt_is_Some. lia.
Qed.

Lemma index_Some_range {A : Type} (l : list A) (i : Z) (a : A) :
  index l i = Some a -> 0 <= i < Z.of_nat (length l).
Proof.
  unfold index. destruct (decide (0 <= i)) as [Hi|Hi]; [|discriminate].
  intros Hl. apply lookup_lt_Some in Hl. lia.
Qed.

Lemma index_negative {A : Type} (l : list A) (i : Z) : i < 0 -> index l i = None.
Proof. intros Hi. unfold index. apply decide_False. lia. Qed.

Lemma blockCollides_negative_row (g : Grid) (block : Block) :
  y block < 0 -> blockCollides g block = Throws.
Proof.
  intros Hy. unfold blockCollides.
  rewrite decide_False by (unfold Constants.GRID_HEIGHT; lia).
  rewrite index_negative by assumption. reflexivity.
Qed.

Lemma blockCollides_defined (g : Grid) (block : Block) :
  tall g -> 0 <= y block ->
  blockCollides g block =
    Val (bool_decide (Constants.GRID_HEIGHT <= y block) || occupied g block).
Proof.
  intros Hg Hy. unfold blockCollides, occupied.
  destruct (decide (Constants.GRID_HEIGHT <= y block)) as [Hh|Hh].
  - rewrite bool_decide_eq_true_2 by assumption. reflexivity.
  - rewrite bool_decide_eq_false_2 by assumption.
    destruct (index_in_range g (y block)) as [row ->]; [|reflexivity].
    unfold tall in Hg. lia.
Qed.

(** On a grid of [GRID_HEIGHT] rows and a piece without negative row
    indices the scan returns, and it answers [true] exactly when some block
    is at or below the floor or on an occupied cell. *)
Lemma isCollisionDetected_defined (t : Tetrimino) (g : Grid) :
  tall g -> Forall (fun block => 0 <= y block) t ->
  isCollisionDetected t g =
    Val (existsb (fun block =>
           bool_decide (Constants.GRID_HEIGHT <= y block) || occupied g block) t).
Proof.
  intros Hg Ht. unfold isCollisionDetected.
  induction Ht as [|block t Hy _ IH]; simpl; [reflexivity|].
  rewrite (blockCollides_defined g block Hg Hy).
  destruct (bool_decide _ || occupied g block); [reflexivity | exact IH].
Qed.

Lemma isCollisionDetected_false_rows (t : Tetrimino) (g : Grid) :
  isCollisionDetected t g = Val false ->
  Forall (fun block => 0 <= y block < Constants.GRID_HEIGHT) t.
Proof.
  unfold isCollisionDetected. induction t as [|block t IH]; simpl; intros H.
  - constructor.
  - destruct (blockCollides g block) as [[|]|] eqn:Hb; try discriminate.
    constructor; [|apply IH; exact H]. cbv beta.
    unfold blockCollides in Hb.
    destruct (decide (Constants.GRID_HEIGHT <= y block)); [discriminate|].
    destruct (index g (y block)) as [row|] eqn:Hrow; [|discriminate].
    apply index_Some_range in Hrow. lia.
Qed.

Lemma isCollisionDetected_floor (block : Block) (t : Tetrimino) (g : Grid) :
  Constants.GRID_HEIGHT <= y block -> isCollisionDetected (block :: t) g = Val true.
Proof.
  intros Hy. unfold isCollisionDetected, blockCollides. simpl.
  rewrite decide_True by assumption. reflexivity.
Qed.

(** ** The drop loop *)

Lemma descend_S (k : nat) (t : Tetrimino) : descend (S k) t = map down (descend k t).
Proof.
  revert t. induction k as [|k IH]; intros t; [reflexivity|].
  change (descend (S (S k)) t) with (descend (S k) (map down t)).
  rewrite IH. reflexivity.
Qed.

Lemma up_down (t : Tetrimino) : map up (map down t) = t.
Proof.
  induction t as [|[bx b_y c] t IH]; simpl; [reflexivity|].
  rewrite IH. unfold up, down. simpl. f_equal. f_equal. lia.
Qed.

Lemma down_rows (t : Tetrimino) :
  Forall (fun block => 0 <= y block) t ->
  Forall (fun block => 0 <= y block) (map down t).
Proof.
  intros Ht. apply Forall_fmap. eapply Forall_impl; [exact Ht|].
  intros block Hy. unfold compose, down. simpl in *. lia.
Qed.

(** The loop leaves within [n] rounds when the first block is at most [n]
    rows above the floor; it stops at the first position that collides. *)
Lemma dropLoop_stops (g : Grid) (n : nat) (t : Tetrimino) :
  tall g ->
  Forall (fun block => 0 <= y block) t ->
  match t with
  | block :: _ => Constants.GRID_HEIGHT <= y block + Z.of_nat n
  | [] => False
  end ->
  exists k : nat,
    (k <= n)%nat /\
    (forall j, (j < k)%nat -> isCollisionDetected (descend j t) g = Val false) /\
    isCollisionDetected (descend k t) g = Val true /\
    (forall fuel, (k < fuel)%nat -> dropLoop fuel t g = Some (Val (descend k t))).
Proof.
  intros Hg. revert t. induction n as [|n IH]; intros t Ht Hfirst.
  - destruct t as [|block t]; [contradiction|].
    assert (Hc : isCollisionDetected (block :: t) g = Val true)
      by (apply isCollisionDetected_floor; lia).
    exists 0%nat. split; [lia|]. split; [intros j Hj; lia|]. split; [exact Hc|].
    intros [|fuel] Hfuel; [lia|]. simpl. rewrite Hc. reflexivity.
  - destruct (existsb (fun block =>
        bool_decide (Constants.GRID_HEIGHT <= y block) || occupied g block) t) eqn:Hnow;
      pose proof (isCollisionDetected_defined t g Hg Ht) as Hc; rewrite Hnow in Hc.
    + exists 0%nat. split; [lia|]. split; [intros j Hj; lia|]. split; [exact Hc|].
      intros [|fuel] Hfuel; [lia|]. simpl. rewrite Hc. reflexivity.
    + destruct (IH (map down t)) as (k & Hk & Hbefore & Hat & Hloop).
      * apply down_rows, Ht.
      * destruct t as [|block t]; [contradiction|]. simpl. lia.
      * exists (S k). split; [lia|]. split; [|split; [exact Hat|]].
        -- intros [|j] Hj; [exact Hc|]. apply Hbefore. lia.
        -- intros [|fuel] Hfuel; [lia|]. simpl. rewrite Hc. apply Hloop. lia.
Qed.

Lemma generated_cyan : generated cyanPiece.
Proof. exists 0, 50. repeat split; try lia; reflexivity. Qed.

Lemma generated_yellow : generated yellowPiece.
Proof. exists 1, 50. repeat split; try lia; reflexivity. Qed.

Lemma generated_blue : generated bluePiece.
Proof. exists 2, 50. repeat split; try lia; reflexivity. Qed.

(** ** Tick and the pause flag *)

(** C1. [Tick.apply] never reads [paused]: in the paused game reached by one
    press of the pause key from the start, a tick moves the piece down one
    row and replaces the preview, so the state is not left unchanged. *)
Theorem Tick_moves_piece_while_paused (elapsed : Z) (next : Tetrimino) :
  paused pausedGame = true /\
  Tick_apply elapsed next pausedGame
    = Val (withNext next (withCurrent (map down cyanPiece) pausedGame)) /\
  withNext next (withCurrent (map down cyanPiece) pausedGame) <> pausedGame.
Proof.
  split; [reflexivity|]. split; [reflexivity|].
  intros Heq. apply (f_equal currentTetrimino) in Heq. discriminate Heq.
Qed.

(** C2. An instance of [TogglePauseResume] as [main] builds it, one per key
    press with [isPaused = false], sets [paused] to [true] whatever the flag
    of the state was, and leaves the other fields alone: it does not negate
    the flag of a paused state. *)
Theorem TogglePauseResume_new_instance_pauses (s : State) :
  fst (TogglePauseResume_apply TogglePauseResume_new s) = withPaused true s /\
  paused (fst (TogglePauseResume_apply TogglePauseResume_new pausedGame)) = true.
Proof. split; reflexivity. Qed.

(** ** Scoring on landing *)

(** C3. Landing the piece that completes the bottom row at 800 points: one
    line (100) and the gold bonus (200) bring the score to 1100, and the
    level stays 1, computed from 900, where [floor(1100 / 1000) + 1] is 2. *)
Theorem processCollision_level_without_bonus :
  exists s' : State,
    processCollision lastCellGame = Val s' /\
    userScore s' = userScore lastCellGame + 1 * 100 + 200 /\
    userLevel s' = 1 /\
    userScore s' / 1000 + 1 = 2.
Proof.
  eexists. split; [vm_compute; reflexivity|]. repeat split.
Qed.

(** ** Collision detection on a negative row *)

(** C5. Rotating the blue piece where it spawns puts a block on row -1, and
    [isCollisionDetected] throws on that piece: [grid[-1]] is [undefined].
    [Rotate.apply] throws with it. *)
Theorem isCollisionDetected_throws_on_negative_row :
  rotateTetrimino bluePiece
    = [ mk "blue" 5 0; mk "blue" 5 1; mk "blue" 4 (-1); mk "blue" 4 0 ] /\
  isCollisionDetected (rotateTetrimino bluePiece) emptyGrid = Throws /\
  Rotate_apply (initialState bluePiece yellowPiece) = Throws.
Proof. repeat split. Qed.

(** ** Restart *)

(** C8. [Restart.apply] keeps the high score of the state it is given and
    takes every other field from [initialState]: the empty grid, score 0,
    level 1, not paused, not over, and the two pieces drawn at start-up. *)
Theorem Restart_keeps_only_highScore (initialCurrent initialNext : Tetrimino) (s : State) :
  let s' := Restart_apply initialCurrent initialNext s in
  let fresh := initialState initialCurrent initialNext in
  highScore s' = highScore s /\
  grid s' = grid fresh /\
  currentTetrimino s' = currentTetrimino fresh /\
  nextTetrimino s' = nextTetrimino fresh /\
  gameOver s' = gameOver fresh /\
  userScore s' = userScore fresh /\
  userLevel s' = userLevel fresh /\
  paused s' = paused fresh /\
  grid fresh = replicate 20 (replicate 10 false) /\
  currentTetrimino fresh = initialCurrent /\
  nextTetrimino fresh = initialNext /\
  gameOver fresh = false /\
  userScore fresh = 0 /\
  userLevel fresh = 1 /\
  paused fresh = false.
Proof. cbv zeta. repeat split. Qed.

(** ** The game-over branch of landing *)

(** C10. When the game is not paused and the promoted piece collides with
    the grid that [clearLines] returned, [processCollision] returns the input
    state with [gameOver] set and new [userScore] and [highScore]: the grid
    (piece not merged, no row removed), both pieces, the level and the pause
    flag are those of the input. *)
Theorem processCollision_game_over_frame (s : State) (r : Cleared) :
  paused s = false ->
  clearLines (placeTetrimino (currentTetrimino s) (grid s)) goldTetrimino = Val r ->
  isCollisionDetected (nextTetrimino s) (rows r) = Val true ->
  exists s' : State,
    processCollision s = Val s' /\
    gameOver s' = true /\
    grid s' = grid s /\
    currentTetrimino s' = currentTetrimino s /\
    nextTetrimino s' = nextTetrimino s /\
    userLevel s' = userLevel s /\
    paused s' = paused s.
Proof.
  intros Hp Hclear Hnext. unfold processCollision.
  rewrite Hp, Hclear. simpl js_bind. rewrite Hnext. simpl js_bind.
  eexists. split; [reflexivity|]. simpl. repeat split.
Qed.

Lemma processCollision_game_over_frame_witness :
  exists s' : State,
    processCollision blockedSpawnGame = Val s' /\
    gameOver s' = true /\
    grid s' = grid blockedSpawnGame /\
    currentTetrimino s' = currentTetrimino blockedSpawnGame /\
    nextTetrimino s' = nextTetrimino blockedSpawnGame /\
    userLevel s' = userLevel blockedSpawnGame /\
    paused s' = paused blockedSpawnGame.
Proof.
  eapply (processCollision_game_over_frame blockedSpawnGame).
  - reflexivity.
  - vm_compute. reflexivity.
  - vm_compute. reflexivity.
Defined.

(** ** Instant drop *)

Lemma dropLoop_mono (g : Grid) (fuel fuel' : nat) (t : Tetrimino) (v : js Tetrimino) :
  dropLoop fuel t g = Some v -> (fuel <= fuel')%nat -> dropLoop fuel' t g = Some v.
Proof.
  revert fuel' t. induction fuel as [|fuel IH]; intros fuel' t Hrun Hle; [discriminate|].
  destruct fuel' as [|fuel']; [lia|]. simpl in *.
  destruct (isCollisionDetected t g) as [[|]|]; try exact Hrun.
  apply IH; [exact Hrun | lia].
Qed.

Lemma instantDROP_mono (fuel fuel' : nat) (next : Tetrimino) (s : State) (v : js State) :
  instantDROP_apply fuel next s = Some v -> (fuel <= fuel')%nat ->
  instantDROP_apply fuel' next s = Some v.
Proof.
  unfold instantDROP_apply. intros Hrun Hle.
  destruct (dropLoop fuel (currentTetrimino s) (grid s)) as [out|] eqn:Hloop;
    [|discriminate].
  rewrite (dropLoop_mono _ _ _ _ _ Hloop Hle). exact Hrun.
Qed.

(** From a position that is free and has a free position one row below,
    the drop goes down [k >= 1] rows, to the last free position, and returns
    the state with that piece and the new preview. *)
Lemma instantDROP_descends (s : State) (next : Tetrimino) :
  tall (grid s) ->
  currentTetrimino s <> [] ->
  isCollisionDetected (currentTetrimino s) (grid s) = Val false ->
  isCollisionDetected (map down (currentTetrimino s)) (grid s) = Val false ->
  exists k : nat,
    (1 <= k)%nat /\
    (forall j, (j <= k)%nat ->
       isCollisionDetected (descend j (currentTetrimino s)) (grid s) = Val false) /\
    isCollisionDetected (descend (S k) (currentTetrimino s)) (grid s) = Val true /\
    exists fuel0 : nat, forall fuel, (fuel0 <= fuel)%nat ->
      instantDROP_apply fuel next s
        = Some (Val (withNext next (withCurrent (descend k (currentTetrimino s)) s))).
Proof.
  intros Hg Hne Hhere Hbelow.
  pose proof (isCollisionDetected_false_rows _ _ Hhere) as Hrows.
  destruct (currentTetrimino s) as [|block rest] eqn:Hcur; [congruence|].
  destruct (dropLoop_stops (grid s) (Z.to_nat (Constants.GRID_HEIGHT - y block))
              (block :: rest) Hg) as (K & _ & Hbefore & Hat & Hloop).
  - eapply Forall_impl; [exact Hrows|]. intros b Hb. simpl in Hb. lia.
  - lia.
  - destruct K as [|[|k]].
    + simpl in Hat. congruence.
    + simpl in Hat. simpl in Hbelow. congruence.
    + exists (S k). split; [lia|]. split; [|split; [exact Hat|]].
      * intros j Hj. apply Hbefore. lia.
      * exists (S (S (S k))). intros fuel Hfuel. unfold instantDROP_apply.
        rewrite Hcur, Hloop by lia.
        rewrite (descend_S (S k)), up_down.
        rewrite (Hbefore (S k)) by lia. reflexivity.
Qed.

(** C4, as the code has it.  In a state whose grid has [GRID_HEIGHT] rows and
    whose piece (at least one block) is on a free position with a free
    position one row below, [instantDROP.apply] moves the piece down row by
    row to the last position that does not collide and returns the state with
    that piece and a newly generated preview; the landing sequence is not
    run: grid, score, level, high score and both flags are those of the
    input. *)
Theorem instantDROP_moves_without_landing (s : State) (next : Tetrimino) :
  tall (grid s) ->
  currentTetrimino s <> [] ->
  isCollisionDetected (currentTetrimino s) (grid s) = Val false ->
  isCollisionDetected (map down (currentTetrimino s)) (grid s) = Val false ->
  exists (k : nat) (s' : State),
    (1 <= k)%nat /\
    (forall j, (j <= k)%nat ->
       isCollisionDetected (descend j (currentTetrimino s)) (grid s) = Val false) /\
    isCollisionDetected (descend (S k) (currentTetrimino s)) (grid s) = Val true /\
    (exists fuel0 : nat, forall fuel, (fuel0 <= fuel)%nat ->
       instantDROP_apply fuel next s = Some (Val s')) /\
    currentTetrimino s' = descend k (currentTetrimino s) /\
    nextTetrimino s' = next /\
    grid s' = grid s /\
    userScore s' = userScore s /\
    userLevel s' = userLevel s /\
    highScore s' = highScore s /\
    gameOver s' = gameOver s /\
    paused s' = paused s.
Proof.
  intros Hg Hne Hhere Hbelow.
  destruct (instantDROP_descends s next Hg Hne Hhere Hbelow)
    as (k & Hk & Hfree & Hhit & Hrun).
  exists k, (withNext next (withCurrent (descend k (currentTetrimino s)) s)).
  repeat split; assumption.
Qed.

Lemma instantDROP_moves_without_landing_witness :
  exists (k : nat) (s' : State),
    (1 <= k)%nat /\
    (exists fuel0 : nat, forall fuel, (fuel0 <= fuel)%nat ->
       instantDROP_apply fuel bluePiece (initialState cyanPiece yellowPiece)
         = Some (Val s')) /\
    currentTetrimino s' = descend k cyanPiece /\
    grid s' = emptyGrid /\
    userScore s' = 0.
Proof.
  destruct (instantDROP_moves_without_landing
              (initialState cyanPiece yellowPiece) bluePiece)
    as (k & s' & Hk & _ & _ & Hrun & Hcur & _ & Hgrid & Hscore & _).
  - reflexivity.
  - discriminate.
  - reflexivity.
  - reflexivity.
  - exists k, s'. repeat split; assumption.
Defined.

(** What a landing that returns leaves behind when the game is not paused:
    the game is over, or the next piece has become the current one. *)
Lemma processCollision_outcome (s landed : State) :
  paused s = false ->
  processCollision s = Val landed ->
  gameOver landed = true \/ currentTetrimino landed = nextTetrimino s.
Proof.
  intros Hp. unfold processCollision. rewrite Hp.
  destruct (clearLines _ _) as [r|]; [|discriminate]. simpl js_bind.
  destruct (isCollisionDetected _ _) as [[|]|]; [| |discriminate];
    simpl; intros [= <-]; simpl; auto.
Qed.

(** Counterexample to C4 as stated: at the start of a game with the cyan
    piece, the piece can descend, and the drop does not land it. *)
Lemma instantDROP_lands_counterexample :
  isCollisionDetected (map down cyanPiece) emptyGrid = Val false /\
  ~ landsOnDrop (initialState cyanPiece yellowPiece) bluePiece.
Proof.
  split; [reflexivity|].
  intros (k & fuel & landed & Hland & Hdrop).
  assert (Hrun : instantDROP_apply 20 bluePiece (initialState cyanPiece yellowPiece)
                 = Some (Val (withNext bluePiece
                           (withCurrent (descend 16 cyanPiece)
                              (initialState cyanPiece yellowPiece)))))
    by (vm_compute; reflexivity).
  apply (instantDROP_mono _ (Nat.max fuel 20)) in Hdrop; [|lia].
  apply (instantDROP_mono _ (Nat.max fuel 20)) in Hrun; [|lia].
  rewrite Hdrop in Hrun.
  apply processCollision_outcome in Hland; [|reflexivity].
  destruct Hland as [Hover|Hcur].
  - apply (f_equal (fun out => match out with
                              | Some (Val v) => gameOver v
                              | _ => false
                              end)) in Hrun.
    simpl in Hrun. congruence.
  - apply (f_equal (fun out => match out with
                              | Some (Val v) => currentTetrimino v
                              | _ => []
                              end)) in Hrun.
    simpl in Hrun, Hcur. rewrite Hcur in Hrun. discriminate Hrun.
Qed.

(** ** The grid invariant *)

Lemma emptyGrid_wellFormed : wellFormed (replicate 20 (replicate 10 false)).
Proof.
  split; [reflexivity|]. apply Forall_replicate. reflexivity.
Qed.

Lemma Forall_imap_pointwise {A : Type} (P : A -> Prop) (f : nat -> A -> A) (l : list A) :
  (forall i a, P a -> P (f i a)) -> Forall P l -> Forall P (imap f l).
Proof.
  intros Hf Hl. revert f Hf.
  induction Hl as [|a l Ha _ IH]; intros f Hf; simpl; constructor.
  - apply Hf, Ha.
  - apply IH. intros i b. apply Hf.
Qed.

Lemma placeBlock_wellFormed (g : Grid) (block : Block) :
  wellFormed g -> wellFormed (placeBlock g block).
Proof.
  intros [Hh Hw]. unfold placeBlock. split.
  - rewrite length_imap. exact Hh.
  - apply Forall_imap_pointwise; [|exact Hw].
    intros i row Hrow. simpl. destruct (decide (Z.of_nat i = y block)); [|exact Hrow].
    rewrite length_imap. exact Hrow.
Qed.

Lemma placeTetrimino_wellFormed (t : Tetrimino) (g : Grid) :
  wellFormed g -> wellFormed (placeTetrimino t g).
Proof.
  unfold placeTetrimino. revert g.
  induction t as [|block t IH]; intros g Hg; simpl; [exact Hg|].
  apply IH, placeBlock_wellFormed, Hg.
Qed.

Lemma clearLines_wellFormed (g : Grid) (gold : Tetrimino) (r : Cleared) :
  wellFormed g -> clearLines g gold = Val r -> wellFormed (rows r).
Proof.
  intros [Hh Hw] Hr. destruct g as [|row0 g]; [discriminate Hr|].
  rewrite clearLines_eq in Hr. injection Hr as <-. simpl rows.
  assert (Hw0 : Z.of_nat (length row0) = Constants.GRID_WIDTH)
    by (inversion Hw; assumption).
  split.
  - rewrite length_app, length_replicate, filter_split_length. exact Hh.
  - apply Forall_app. split.
    + apply Forall_replicate. unfold emptyRow. rewrite length_replicate. exact Hw0.
    + apply Forall_forall. intros row Hin. apply list_elem_of_filter in Hin.
      destruct Hin as [_ Hin]. rewrite Forall_forall in Hw. apply Hw, Hin.
Qed.

Lemma processCollision_wellFormed (s s' : State) :
  wellFormed (grid s) -> processCollision s = Val s' -> wellFormed (grid s').
Proof.
  intros Hg. unfold processCollision. destruct (paused s).
  - intros [= <-]. exact Hg.
  - destruct (clearLines _ _) as [r|] eqn:Hr; [|discriminate]. simpl js_bind.
    destruct (isCollisionDetected _ _) as [[|]|]; [| |discriminate];
      simpl; intros [= <-]; simpl; [exact Hg|].
    eapply clearLines_wellFormed; [|exact Hr].
    apply placeTetrimino_wellFormed, Hg.
Qed.

(** The two shapes every action returns: the input with some pieces
    replaced, or a landed state with a new preview. *)
Lemma landing_wellFormed (next : Tetrimino) (s s' : State) :
  wellFormed (grid s) ->
  (let* landed := processCollision s in Val (withNext next landed)) = Val s' ->
  wellFormed (grid s').
Proof.
  intros Hg. destruct (processCollision s) as [landed|] eqn:Hland; [|discriminate].
  simpl. intros [= <-]. simpl. eapply processCollision_wellFormed; eassumption.
Qed.

Lemma step_wellFormed (c n : Tetrimino) (s s' : State) :
  step c n s s' -> wellFormed (grid s) -> wellFormed (grid s').
Proof.
  intros Hstep Hg. destruct Hstep as
    [elapsed next s s' _ Hrun | s s' Hrun | s s' Hrun | next s s' _ Hrun
    | s s' Hrun | fuel next s s' _ Hrun | s | isPaused s].
  - unfold Tick_apply in Hrun.
    destruct (isCollisionDetected _ _) as [[|]|]; [| |discriminate]; simpl in Hrun.
    + eapply landing_wellFormed; eassumption.
    + same_grid.
  - unfold moveTetriminoLeft_apply in Hrun.
    destruct (isCollisionDetected _ _) as [b|]; [|discriminate]; simpl in Hrun.
    same_grid.
  - unfold moveTetriminoRight_apply in Hrun.
    destruct (isCollisionDetected _ _) as [b|]; [|discriminate]; simpl in Hrun.
    same_grid.
  - unfold moveTetriminoDown_apply in Hrun.
    destruct (isCollisionDetected _ _) as [[|]|]; [| |discriminate]; simpl in Hrun.
    + eapply landing_wellFormed; eassumption.
    + same_grid.
  - unfold Rotate_apply in Hrun.
    destruct (isCollisionDetected _ _) as [b|]; [|discriminate]; simpl in Hrun.
    destruct (willExceedEdges _ _) as [e|]; [|discriminate]; simpl in Hrun.
    same_grid.
  - unfold instantDROP_apply in Hrun.
    destruct (dropLoop _ _ _) as [[dropped|]|]; try discriminate.
    injection Hrun as Hrun.
    destruct (isCollisionDetected _ _) as [[|]|]; [| |discriminate]; simpl in Hrun.
    + eapply landing_wellFormed; eassumption.
    + same_grid.
  - apply emptyGrid_wellFormed.
  - unfold TogglePauseResume_apply. destruct (negb isPaused); exact Hg.
Qed.

(** C7. Every state the reducer reaches from [initialState], by any sequence
    of Tick, MoveLeft, MoveRight, MoveDown, Rotate, InstantDrop, Restart and
    TogglePauseResume actions, has a grid of [GRID_HEIGHT] rows of
    [GRID_WIDTH] cells each. *)
Theorem reachable_grid_wellFormed (initialCurrent initialNext : Tetrimino) (s : State) :
  reachable initialCurrent initialNext s ->
  Z.of_nat (length (grid s)) = Constants.GRID_HEIGHT /\
  Forall (fun row => Z.of_nat (length row) = Constants.GRID_WIDTH) (grid s).
Proof.
  intros Hreach. change (wellFormed (grid s)). unfold reachable in Hreach.
  revert s Hreach. apply (rtc_ind_r (fun s => wellFormed (grid s))).
  - apply emptyGrid_wellFormed.
  - intros s1 s2 _ Hstep IH. eapply step_wellFormed; eassumption.
Qed.

Lemma reachable_grid_wellFormed_witness :
  let s := withNext bluePiece (withCurrent (map down cyanPiece) pausedGame) in
  Z.of_nat (length (grid s)) = Constants.GRID_HEIGHT /\
  Forall (fun row => Z.of_nat (length row) = Constants.GRID_WIDTH) (grid s).
Proof.
  apply (reachable_grid_wellFormed cyanPiece yellowPiece).
  eapply rtc_l; [apply (step_Toggle _ _ TogglePauseResume_new)|].
  apply rtc_once. apply (step_Tick _ _ 0 bluePiece); [|reflexivity].
  exists 2, 50. repeat split; try lia; reflexivity.
Defined.

(** * Further properties of the code *)

(** ** Placement *)

Lemma placeBlock_cell (g : Grid) (block : Block) (i j : nat) :
  cell (placeBlock g block) i j = (fun c => c || covers i j block) <$> cell g i j.
Proof.
  unfold cell, placeBlock, covers. rewrite list_lookup_imap.
  destruct (g !! i) as [row|]; simpl; [|reflexivity].
  destruct (decide (Z.of_nat i = y block)) as [Hi|Hi].
  - rewrite list_lookup_imap. destruct (row !! j) as [c|]; simpl; [|reflexivity].
    rewrite (bool_decide_eq_true_2 (y block = Z.of_nat i)) by congruence.
    destruct (decide (Z.of_nat j = x block)) as [Hj|Hj].
    + rewrite (bool_decide_eq_true_2 (x block = Z.of_nat j)) by congruence.
      rewrite orb_true_r. reflexivity.
    + rewrite (bool_decide_eq_false_2 (x block = Z.of_nat j)) by congruence.
      rewrite orb_false_r. reflexivity.
  - rewrite (bool_decide_eq_false_2 (y block = Z.of_nat i)) by congruence.
    destruct (row !! j) as [c|]; simpl; [|reflexivity].
    rewrite orb_false_r. reflexivity.
Qed.

Lemma placeTetrimino_cell_or (t : Tetrimino) (g : Grid) (i j : nat) :
  cell (placeTetrimino t g) i j = (fun c => c || existsb (covers i j) t) <$> cell g i j.
Proof.
  unfold placeTetrimino. revert g. induction t as [|block t IH]; intros g; simpl.
  - destruct (cell g i j) as [c|]; simpl; [|reflexivity]. rewrite orb_false_r. reflexivity.
  - rewrite IH, placeBlock_cell. destruct (cell g i j) as [c|]; simpl; [|reflexivity].
    rewrite orb_assoc. reflexivity.
Qed.

(** X1. The grid returned by [placeTetrimino] has a cell exactly where the
    input has one, and the cell is occupied when it was occupied before or
    a block of the piece lies on it.  Blocks outside of the grid change
    nothing, and no cell is ever freed. *)
Theorem placeTetrimino_cell (t : Tetrimino) (g : Grid) (i j : nat) :
  (cell (placeTetrimino t g) i j = None <-> cell g i j = None) /\
  (forall c : bool,
     cell g i j = Some c ->
     cell (placeTetrimino t g) i j = Some (c || existsb (covers i j) t)) /\
  (cell g i j = Some true -> cell (placeTetrimino t g) i j = Some true).
Proof.
  rewrite placeTetrimino_cell_or. split; [|split].
  - destruct (cell g i j) as [c|]; simpl; split; intros H; try discriminate H;
      reflexivity.
  - intros c ->. reflexivity.
  - intros ->. reflexivity.
Qed.

Lemma placeBlock_shape (g : Grid) (block : Block) :
  length <$> placeBlock g block = length <$> g.
Proof.
  apply list_eq. intros i. unfold placeBlock.
  rewrite !list_lookup_fmap, list_lookup_imap.
  destruct (g !! i) as [row|]; simpl; [|reflexivity].
  destruct (decide (Z.of_nat i = y block)); [|reflexivity].
  rewrite length_imap. reflexivity.
Qed.

(** X2. [placeTetrimino] keeps the shape of any grid, rectangular or not:
    the same number of rows, and each row as long as before. *)
Theorem placeTetrimino_shape (t : Tetrimino) (g : Grid) :
  length <$> placeTetrimino t g = length <$> g.
Proof.
  unfold placeTetrimino. revert g. induction t as [|block t IH]; intros g; simpl.
  - reflexivity.
  - rewrite IH. apply placeBlock_shape.
Qed.

Lemma index_of_nat {A : Type} (l : list A) (i : nat) : index l (Z.of_nat i) = l !! i.
Proof.
  unfold index. rewrite decide_True by lia. rewrite Nat2Z.id. reflexivity.
Qed.

Lemma occupied_cell (g : Grid) (block : Block) :
  0 <= x block -> 0 <= y block ->
  occupied g block = default false (cell g (Z.to_nat (y block)) (Z.to_nat (x block))).
Proof.
  intros Hx Hy. unfold occupied, cell, index.
  rewrite !decide_True by assumption.
  destruct (g !! Z.to_nat (y block)) as [row|]; [|reflexivity].
  rewrite decide_True by assumption. reflexivity.
Qed.

Lemma wellFormed_cell (g : Grid) (block : Block) :
  wellFormed g -> inGrid block ->
  is_Some (cell g (Z.to_nat (y block)) (Z.to_nat (x block))).
Proof.
  intros [Hh Hw] [Hx Hy]. unfold cell.
  destruct (lookup_lt_is_Some_2 g (Z.to_nat (y block))) as [row Hrow]; [lia|].
  rewrite Hrow. apply lookup_lt_is_Some_2.
  rewrite Forall_lookup in Hw. specialize (Hw _ _ Hrow). simpl in Hw. lia.
Qed.

Lemma covers_self (block : Block) :
  0 <= x block -> 0 <= y block ->
  covers (Z.to_nat (y block)) (Z.to_nat (x block)) block = true.
Proof.
  intros Hx Hy. unfold covers.
  rewrite !bool_decide_eq_true_2 by lia. reflexivity.
Qed.

(** X3. A piece with at least one block, all inside a 20 x 10 grid, collides
    with the grid it has been placed on. *)
Theorem placed_piece_collides (t : Tetrimino) (g : Grid) :
  wellFormed g -> t <> [] -> Forall inGrid t ->
  isCollisionDetected t (placeTetrimino t g) = Val true.
Proof.
  intros Hg Hne Ht.
  rewrite isCollisionDetected_defined.
  - destruct t as [|block t]; [congruence|]. f_equal.
    apply existsb_exists. exists block. split; [left; reflexivity|].
    apply orb_true_iff. right.
    pose proof (Forall_inv Ht) as [Hx Hy].
    rewrite occupied_cell by lia. rewrite placeTetrimino_cell_or.
    destruct (wellFormed_cell g block Hg) as [c ->]; [split; assumption|].
    simpl. rewrite covers_self by lia. rewrite orb_true_r. reflexivity.
  - apply placeTetrimino_wellFormed, Hg.
  - eapply Forall_impl; [exact Ht|]. intros b [_ Hy]. lia.
Qed.

Lemma placed_piece_collides_witness :
  isCollisionDetected cyanAtFloor (placeTetrimino cyanAtFloor emptyGrid) = Val true.
Proof.
  apply placed_piece_collides.
  - apply emptyGrid_wellFormed.
  - discriminate.
  - unfold inGrid, Constants.GRID_WIDTH, Constants.GRID_HEIGHT.
    repeat constructor; simpl; lia.
Defined.

(** ** Line clearing without complete rows *)

Lemma clearLoop_incomplete (gold : Tetrimino) (g : Grid) (acc : Cleared) :
  Forall (fun row => ~ complete row) g ->
  foldl (clearStep gold) acc g =
    {| rows := rows acc ++ g;
       linesCleared := linesCleared acc;
       goldLineCleared := goldLineCleared acc |}.
Proof.
  intros Hg. revert acc. induction Hg as [|row g Hrow _ IH]; intros acc; simpl.
  - rewrite app_nil_r. destruct acc; reflexivity.
  - rewrite IH, (clearStep_incomplete gold acc row Hrow). simpl.
    rewrite <- app_assoc. reflexivity.
Qed.

Lemma clearLines_incomplete (g : Grid) (gold : Tetrimino) :
  g <> [] ->
  Forall (fun row => ~ complete row) g ->
  clearLines g gold = Val {| rows := g; linesCleared := 0; goldLineCleared := false |}.
Proof.
  intros Hne Hg. destruct g as [|row0 g]; [congruence|].
  unfold clearLines. rewrite (clearLoop_incomplete gold _ _ Hg).
  change (index (row0 :: g) 0) with (Some row0). reflexivity.
Qed.

(** X4. On a grid with at least one row and no complete row, [clearLines]
    returns the grid as it is, with no line counted and the gold flag
    unset, whatever the template. *)
Theorem clearLines_nothing_to_clear (g : Grid) (gold : Tetrimino) :
  g <> [] ->
  Forall (fun row => ~ complete row) g ->
  clearLines g gold = Val {| rows := g; linesCleared := 0; goldLineCleared := false |}.
Proof.
  intros Hne Hg. destruct g as [|row0 g]; [congruence|].
  unfold clearLines. rewrite (clearLoop_incomplete gold _ _ Hg).
  change (index (row0 :: g) 0) with (Some row0). reflexivity.
Qed.

Lemma clearLines_nothing_to_clear_witness :
  clearLines [[true; false]; [false; false]] goldTetrimino
    = Val {| rows := [[true; false]; [false; false]];
             linesCleared := 0; goldLineCleared := false |}.
Proof.
  apply clearLines_nothing_to_clear.
  - discriminate.
  - repeat constructor; intros Hc; inversion Hc as [|? ? ? Hrest]; subst;
      try discriminate; inversion Hrest; discriminate.
Defined.

Lemma emptyRow_incomplete (len : nat) : (0 < len)%nat -> ~ complete (emptyRow len).
Proof.
  intros Hlen Hc. destruct len as [|len]; [lia|].
  unfold emptyRow in Hc. simpl in Hc. inversion Hc. discriminate.
Qed.

Lemma cleared_rows_incomplete (g : Grid) (gold : Tetrimino) (r : Cleared) :
  Forall (fun row => row <> []) g ->
  clearLines g gold = Val r ->
  Forall (fun row => ~ complete row) (rows r).
Proof.
  intros Hrows Hr. destruct g as [|row0 g]; [discriminate Hr|].
  rewrite clearLines_eq in Hr. injection Hr as <-. simpl rows.
  apply Forall_app. split.
  - apply Forall_replicate, emptyRow_incomplete.
    pose proof (Forall_inv Hrows) as Hrow0. destruct row0; [congruence|simpl; lia].
  - apply Forall_forall. intros row Hin. apply list_elem_of_filter in Hin. tauto.
Qed.

(** X5. After [clearLines] no row is complete (on a grid with a first row
    and no row of width zero), so clearing the result again returns it
    unchanged and counts no line. *)
Theorem clearLines_idempotent (g : Grid) (gold gold' : Tetrimino) (r : Cleared) :
  Forall (fun row => row <> []) g ->
  clearLines g gold = Val r ->
  Forall (fun row => ~ complete row) (rows r) /\
  clearLines (rows r) gold'
    = Val {| rows := rows r; linesCleared := 0; goldLineCleared := false |}.
Proof.
  intros Hrows Hr.
  pose proof (cleared_rows_incomplete g gold r Hrows Hr) as Hinc.
  split; [exact Hinc|]. apply clearLines_incomplete; [|exact Hinc].
  destruct g as [|row0 g]; [discriminate Hr|].
  rewrite clearLines_eq in Hr. injection Hr as <-. simpl rows.
  intros Hnil. apply (f_equal length) in Hnil.
  rewrite length_app, length_replicate, filter_split_length in Hnil.
  discriminate Hnil.
Qed.

Lemma clearLines_idempotent_witness :
  exists r : Cleared,
    clearLines [[true; true]; [true; false]] goldTetrimino = Val r /\
    clearLines (rows r) goldTetrimino
      = Val {| rows := rows r; linesCleared := 0; goldLineCleared := false |}.
Proof.
  eexists. split; [vm_compute; reflexivity|].
  apply (clearLines_idempotent [[true; true]; [true; false]] goldTetrimino).
  - repeat constructor; discriminate.
  - vm_compute. reflexivity.
Defined.

(** ** Rotation *)

Lemma turn_origin (origin : Block) : turn origin origin = origin.
Proof.
  destruct origin as [bx b_y c]. unfold turn. simpl. f_equal; lia.
Qed.

Lemma rotateTetrimino_cons (origin : Block) (rest : Tetrimino) :
  rotateTetrimino (origin :: rest) = origin :: map (turn origin) rest.
Proof.
  unfold rotateTetrimino. change (fun block => _) with (turn origin).
  simpl. rewrite turn_origin. reflexivity.
Qed.

Lemma turn_four_times (origin block : Block) :
  turn origin (turn origin (turn origin (turn origin block))) = block.
Proof.
  destruct block as [bx b_y c]. unfold turn. simpl. f_equal; lia.
Qed.

Lemma turn_small (origin block : Block) :
  Z.abs (x origin) <= 2251799813685248 ->
  Z.abs (y origin) <= 2251799813685248 ->
  Z.abs (x block) <= 2251799813685248 ->
  Z.abs (y block) <= 2251799813685248 ->
  exactTurn origin block /\
  exactTurn origin (turn origin block) /\
  exactTurn origin (turn origin (turn origin block)) /\
  exactTurn origin (turn origin (turn origin (turn origin block))).
Proof.
  destruct origin as [ox oy oc], block as [bx b_y bc].
  unfold exactTurn, turn, MAX_SAFE_INTEGER. simpl. intros Hox Hoy Hbx Hby.
  repeat split; lia.
Qed.

Lemma exactRotation_cons (origin : Block) (l : Tetrimino) :
  Forall (exactTurn origin) (origin :: l) -> exactRotation (origin :: l).
Proof. intros H. exact H. Qed.

(** X6. Four rotations bring a piece back to itself when its coordinates
    are at most 2^51 in absolute value; every number computed on the way,
    in each of the four rotations, is then a safe integer, so that the
    arithmetic of the code is exact. *)
Theorem rotateTetrimino_four_times (t : Tetrimino) :
  smallCoordinates t ->
  rotateTetrimino (rotateTetrimino (rotateTetrimino (rotateTetrimino t))) = t /\
  exactRotation t /\
  exactRotation (rotateTetrimino t) /\
  exactRotation (rotateTetrimino (rotateTetrimino t)) /\
  exactRotation (rotateTetrimino (rotateTetrimino (rotateTetrimino t))).
Proof.
  intros Hsmall. destruct t as [|origin rest]; [repeat split|].
  rewrite !rotateTetrimino_cons.
  pose proof (Forall_inv Hsmall) as [Hox Hoy].
  pose proof (Forall_inv_tail Hsmall) as Hrest.
  destruct (turn_small origin origin Hox Hoy Hox Hoy) as (Horigin & _).
  split; [|repeat split; apply exactRotation_cons; constructor; try exact Horigin].
  - rewrite !map_map. f_equal.
    rewrite <- (map_id rest) at 2. apply map_ext. intros block.
    apply turn_four_times.
  - eapply Forall_impl; [exact Hrest|]. intros block [Hbx Hby].
    apply (turn_small origin block); assumption.
  - apply Forall_fmap. eapply Forall_impl; [exact Hrest|]. intros block [Hbx Hby].
    apply (turn_small origin block); assumption.
  - rewrite map_map. apply Forall_fmap.
    eapply Forall_impl; [exact Hrest|]. intros block [Hbx Hby].
    apply (turn_small origin block); assumption.
  - rewrite !map_map. apply Forall_fmap.
    eapply Forall_impl; [exact Hrest|]. intros block [Hbx Hby].
    apply (turn_small origin block); assumption.
Qed.

Lemma rotateTetrimino_four_times_witness :
  rotateTetrimino (rotateTetrimino (rotateTetrimino (rotateTetrimino bluePiece)))
    = bluePiece /\
  exactRotation bluePiece /\
  exactRotation (rotateTetrimino bluePiece) /\
  exactRotation (rotateTetrimino (rotateTetrimino bluePiece)) /\
  exactRotation (rotateTetrimino (rotateTetrimino (rotateTetrimino bluePiece))).
Proof.
  apply rotateTetrimino_four_times.
  repeat (apply List.Forall_cons; [simpl; lia|]). apply List.Forall_nil.
Defined.

(** X7. A rotation keeps the first block where it is (it is the pivot), and
    keeps the number of blocks and their colours, in order. *)
Theorem rotateTetrimino_pivot (t : Tetrimino) :
  head (rotateTetrimino t) = head t /\
  length (rotateTetrimino t) = length t /\
  map color (rotateTetrimino t) = map color t.
Proof.
  destruct t as [|origin rest]; [repeat split|].
  rewrite rotateTetrimino_cons. split; [reflexivity|]. split.
  - simpl. rewrite length_map. reflexivity.
  - simpl. rewrite map_map. reflexivity.
Qed.

(** ** The generator *)

(** The gold branch: taken for a roll of at most 5, whatever the index. *)
Lemma generator_gold (shapeIndex randomChance : Z) :
  randomChance <= 5 ->
  generateANewTetrimino shapeIndex randomChance
    = Val [ mk "gold" 4 0; mk "gold" 4 1; mk "gold" 5 1; mk "gold" 5 2 ].
Proof.
  intros Hgold. unfold generateANewTetrimino.
  rewrite decide_True by assumption. reflexivity.
Qed.

(** The other branch: the shape of the catalogue, moved four columns right. *)
Lemma generator_shape (shapeIndex randomChance : Z) :
  5 < randomChance ->
  0 <= shapeIndex < Z.of_nat (length shapes) ->
  exists t : Tetrimino,
    generateANewTetrimino shapeIndex randomChance = Val t /\
    length t = 4%nat /\
    Forall (fun block => (4 <= x block <= 6) /\ (0 <= y block <= 3)) t /\
    exists c : string, Forall (fun block => color block = c) t.
Proof.
  intros Hroll Hidx. unfold generateANewTetrimino.
  rewrite decide_False by lia. simpl in Hidx.
  assert (Hcases : shapeIndex = 0 \/ shapeIndex = 1 \/ shapeIndex = 2 \/
                   shapeIndex = 3 \/ shapeIndex = 4 \/ shapeIndex = 5 \/
                   shapeIndex = 6) by lia.
  destruct Hcases as [->|[->|[->|[->|[->|[->| ->]]]]]];
    (eexists; split; [vm_compute; reflexivity|]; split; [reflexivity|]; split;
     [repeat (apply List.Forall_cons; [simpl; lia|]); apply List.Forall_nil
     | eexists; repeat (apply List.Forall_cons; [reflexivity|]);
       apply List.Forall_nil]).
Qed.

(** X8. For a shape index among the seven shapes the generator returns a
    piece, whatever the other draw: four blocks of one colour, in columns 4
    to 6 and rows 0 to 3, so inside the grid. *)
Theorem generateANewTetrimino_spawn (shapeIndex randomChance : Z) :
  0 <= shapeIndex < Z.of_nat (length shapes) ->
  exists t : Tetrimino,
    generateANewTetrimino shapeIndex randomChance = Val t /\
    length t = 4%nat /\
    Forall (fun block => (4 <= x block <= 6) /\ (0 <= y block <= 3)) t /\
    exists c : string, Forall (fun block => color block = c) t.
Proof.
  intros Hidx. destruct (decide (randomChance <= 5)) as [Hgold|Hroll].
  - eexists. split; [apply generator_gold, Hgold|]. split; [reflexivity|]. split.
    + repeat (apply List.Forall_cons; [simpl; lia|]). apply List.Forall_nil.
    + exists "gold"%string. repeat (apply List.Forall_cons; [reflexivity|]).
      apply List.Forall_nil.
  - apply generator_shape; [lia | exact Hidx].
Qed.

Lemma generateANewTetrimino_spawn_witness :
  exists t : Tetrimino,
    generateANewTetrimino 6 50 = Val t /\
    length t = 4%nat /\
    Forall (fun block => (4 <= x block <= 6) /\ (0 <= y block <= 3)) t /\
    exists c : string, Forall (fun block => color block = c) t.
Proof.
  apply generateANewTetrimino_spawn. simpl. lia.
Defined.

Lemma generated_inGrid (t : Tetrimino) :
  generated t -> length t = 4%nat /\ Forall inGrid t.
Proof.
  intros (shapeIndex & randomChance & Hidx & _ & Hgen).
  destruct (decide (randomChance <= 5)) as [Hgold|Hroll].
  - rewrite (generator_gold shapeIndex randomChance Hgold) in Hgen.
    injection Hgen as <-. split; [reflexivity|].
    unfold inGrid, Constants.GRID_WIDTH, Constants.GRID_HEIGHT.
    repeat (apply List.Forall_cons; [simpl; lia|]). apply List.Forall_nil.
  - destruct (generator_shape shapeIndex randomChance) as (t' & Hgen' & Hlen & Hin & _);
      [lia | exact Hidx |].
    rewrite Hgen in Hgen'. injection Hgen' as <-. split; [exact Hlen|].
    eapply Forall_impl; [exact Hin|]. intros block [Hx Hy].
    unfold inGrid, Constants.GRID_WIDTH, Constants.GRID_HEIGHT. lia.
Qed.

(** ** What the reducer maintains *)

Lemma wellFormed_tall (g : Grid) : wellFormed g -> tall g.
Proof. intros [Hh _]. exact Hh. Qed.

Lemma wellFormed_rows_nonempty (g : Grid) :
  wellFormed g -> Forall (fun row => row <> []) g.
Proof.
  intros [_ Hw]. eapply Forall_impl; [exact Hw|].
  intros row Hrow ->. simpl in Hrow. unfold Constants.GRID_WIDTH in Hrow. lia.
Qed.

Lemma wellFormed_first_row (g : Grid) :
  wellFormed g -> exists row0 rest, g = row0 :: rest.
Proof.
  intros [Hh _]. destruct g as [|row0 rest]; [|eauto].
  simpl in Hh. unfold Constants.GRID_HEIGHT in Hh. lia.
Qed.

Lemma isCollisionDetected_returns (t : Tetrimino) (g : Grid) :
  tall g -> Forall (fun block => 0 <= y block) t ->
  exists b : bool, isCollisionDetected t g = Val b.
Proof.
  intros Hg Ht. eexists. apply isCollisionDetected_defined; assumption.
Qed.

Lemma free_rows (t : Tetrimino) (g : Grid) :
  isCollisionDetected t g = Val false -> Forall (fun block => 0 <= y block) t.
Proof.
  intros Hfree. apply isCollisionDetected_false_rows in Hfree.
  eapply Forall_impl; [exact Hfree|]. intros block Hy. simpl in Hy. lia.
Qed.

Lemma inGrid_rows (t : Tetrimino) :
  Forall inGrid t -> Forall (fun block => 0 <= y block) t.
Proof.
  intros Ht. eapply Forall_impl; [exact Ht|]. intros block [_ Hy]. lia.
Qed.

Lemma inGrid_columns (t : Tetrimino) :
  Forall inGrid t -> Forall (fun block => 0 <= x block < Constants.GRID_WIDTH) t.
Proof.
  intros Ht. eapply Forall_impl; [exact Ht|]. intros block [Hx _]. exact Hx.
Qed.

Lemma occupied_empty (n m : nat) (block : Block) :
  occupied (replicate n (replicate m false)) block = false.
Proof.
  unfold occupied, index.
  destruct (decide (0 <= y block)); [|reflexivity].
  destruct (replicate n (replicate m false) !! Z.to_nat (y block)) as [row|] eqn:Hrow;
    [|reflexivity].
  apply lookup_replicate in Hrow. destruct Hrow as [-> _].
  destruct (decide (0 <= x block)); [|reflexivity].
  destruct (replicate m false !! Z.to_nat (x block)) as [c|] eqn:Hc; [|reflexivity].
  apply lookup_replicate in Hc. destruct Hc as [-> _]. reflexivity.
Qed.

Lemma inGrid_free_on_empty (t : Tetrimino) :
  Forall inGrid t ->
  isCollisionDetected t (replicate 20 (replicate 10 false)) = Val false.
Proof.
  intros Ht. rewrite isCollisionDetected_defined.
  - f_equal. induction Ht as [|block t [_ Hy] _ IH]; [reflexivity|].
    cbn [existsb]. rewrite IH, occupied_empty, bool_decide_eq_false_2 by lia.
    reflexivity.
  - reflexivity.
  - apply inGrid_rows, Ht.
Qed.

Lemma clearLines_returns (g : Grid) (gold : Tetrimino) :
  wellFormed g ->
  exists r : Cleared,
    clearLines g gold = Val r /\
    wellFormed (rows r) /\
    Forall (fun row => ~ complete row) (rows r) /\
    linesCleared r = Z.of_nat (length (filter complete g)).
Proof.
  intros Hg. destruct (wellFormed_first_row g Hg) as (row0 & rest & ->).
  eexists. split; [apply clearLines_eq|]. split; [|split; [|reflexivity]].
  - eapply clearLines_wellFormed; [exact Hg | apply clearLines_eq].
  - eapply cleared_rows_incomplete; [|apply clearLines_eq].
    apply wellFormed_rows_nonempty, Hg.
Qed.

(** The bonus added on a landing is never negative. *)
Lemma goldScoreIncrease_nonneg (flag : bool) (n : Z) :
  0 <= (if flag
        then Z.of_nat (length (filter (fun block => y block = n - 1) goldTetrimino)) * 200
        else 0).
Proof. destruct flag; lia. Qed.

Lemma withNext_playable (next : Tetrimino) (s : State) :
  playable s -> generated next -> playable (withNext next s).
Proof.
  intros (Hg & Hinc & Hfree & Hcol & Hlen & _ & _ & Hscore & Hlevel) Hnext.
  destruct (generated_inGrid next Hnext) as [Hlen' Hin].
  playable_fields.
Qed.

(** A landing from a playable state returns a playable state and does not
    lower the high score. *)
Lemma processCollision_playable (s : State) :
  playable s ->
  exists s' : State,
    processCollision s = Val s' /\ playable s' /\ highScore s <= highScore s'.
Proof.
  intros Hs.
  pose proof Hs as (Hg & Hinc & Hfree & Hcol & Hlen & Hnext & Hlen' & Hscore & Hlevel).
  unfold processCollision. destruct (paused s) eqn:Hp.
  - exists s. split; [reflexivity|]. split; [exact Hs | lia].
  - destruct (clearLines_returns (placeTetrimino (currentTetrimino s) (grid s)) goldTetrimino)
      as (r & -> & Hr & Hrinc & Hk); [apply placeTetrimino_wellFormed, Hg|].
    simpl js_bind.
    destruct (isCollisionDetected_returns (nextTetrimino s) (rows r))
      as [b Hb]; [apply wellFormed_tall, Hr | apply inGrid_rows, Hnext|].
    rewrite Hb. simpl js_bind.
    pose proof (goldScoreIncrease_nonneg (goldLineCleared r) (linesCleared r)) as Hbonus.
    assert (Hlines : 0 <= linesCleared r) by lia.
    eexists. split; [reflexivity|]. destruct b; (split; [|simpl; lia]).
    + playable_fields.
    + playable_fields.
      * apply inGrid_columns, Hnext.
      * assert (0 <= (userScore s + linesCleared r * 100) / 1000)
          by (apply Z.div_pos; lia).
        lia.
Qed.

Lemma columns_map (f : Block -> Block) (t : Tetrimino) :
  (forall block, x (f block) = x block) ->
  Forall (fun block => 0 <= x block < Constants.GRID_WIDTH) t ->
  Forall (fun block => 0 <= x block < Constants.GRID_WIDTH) (map f t).
Proof.
  intros Hf Ht. apply Forall_fmap. eapply Forall_impl; [exact Ht|].
  intros block Hx. unfold compose. rewrite Hf. exact Hx.
Qed.

Lemma descend_columns (k : nat) (t : Tetrimino) :
  Forall (fun block => 0 <= x block < Constants.GRID_WIDTH) t ->
  Forall (fun block => 0 <= x block < Constants.GRID_WIDTH) (descend k t).
Proof.
  revert t. induction k as [|k IH]; intros t Ht; [exact Ht|].
  simpl. apply IH, columns_map; [reflexivity | exact Ht].
Qed.

Lemma descend_length (k : nat) (t : Tetrimino) : length (descend k t) = length t.
Proof.
  revert t. induction k as [|k IH]; intros t; [reflexivity|].
  simpl. rewrite IH. apply length_map.
Qed.

Lemma existsb_false_Forall {A : Type} (f : A -> bool) (l : list A) :
  existsb f l = false -> Forall (fun a => f a = false) l.
Proof.
  induction l as [|a l IH]; simpl; intros H; [constructor|].
  apply orb_false_iff in H. destruct H as [Ha Hl]. constructor; auto.
Qed.

Lemma rotateTetrimino_length (t : Tetrimino) : length (rotateTetrimino t) = length t.
Proof.
  destruct t as [|origin rest]; [reflexivity|].
  rewrite rotateTetrimino_cons. simpl. rewrite length_map. reflexivity.
Qed.

Lemma moveTetriminoDown_is_Tick (elapsed : Z) (next : Tetrimino) (s : State) :
  moveTetriminoDown_apply next s = Tick_apply elapsed next s.
Proof. reflexivity. Qed.

Lemma withCurrent_playable (t : Tetrimino) (s : State) :
  playable s ->
  isCollisionDetected t (grid s) = Val false ->
  Forall (fun block => 0 <= x block < Constants.GRID_WIDTH) t ->
  length t = 4%nat ->
  playable (withCurrent t s).
Proof.
  intros (Hg & Hinc & _ & _ & _ & Hnext & Hlen' & Hscore & Hlevel) Hfree Hcol Hlen.
  playable_fields.
Qed.

(** From a playable state a tick returns a playable state. *)
Lemma Tick_playable (elapsed : Z) (next : Tetrimino) (s : State) :
  playable s -> generated next ->
  exists s' : State,
    Tick_apply elapsed next s = Val s' /\ playable s' /\ highScore s <= highScore s'.
Proof.
  intros Hs Hnext.
  pose proof Hs as (Hg & _ & Hfree & Hcol & Hlen & _).
  unfold Tick_apply.
  destruct (isCollisionDetected_returns (map down (currentTetrimino s)) (grid s))
    as [b Hb]; [apply wellFormed_tall, Hg | apply down_rows, (free_rows _ _ Hfree)|].
  cbv zeta. rewrite Hb. simpl js_bind. destruct b.
  - destruct (processCollision_playable s Hs) as (landed & -> & Hl & Hh).
    simpl js_bind. eexists. split; [reflexivity|]. split; [|exact Hh].
    apply withNext_playable; assumption.
  - eexists. split; [reflexivity|]. split; [|simpl; lia].
    apply withNext_playable; [|exact Hnext].
    apply withCurrent_playable; try assumption.
    + apply columns_map; [reflexivity | exact Hcol].
    + rewrite length_map. exact Hlen.
Qed.

Lemma moveTetriminoLeft_playable (s : State) :
  playable s ->
  exists s' : State, moveTetriminoLeft_apply s = Val s' /\ playable s'.
Proof.
  intros Hs. pose proof Hs as (Hg & _ & Hfree & Hcol & Hlen & _).
  unfold moveTetriminoLeft_apply.
  destruct (isCollisionDetected_returns (map left (currentTetrimino s)) (grid s))
    as [b Hb]; [apply wellFormed_tall, Hg| |].
  { apply Forall_fmap. eapply Forall_impl; [exact (free_rows _ _ Hfree)|].
    intros block Hy. exact Hy. }
  cbv zeta. rewrite Hb. simpl js_bind.
  destruct (existsb (fun block => x block <? 0) (map left (currentTetrimino s)))
    eqn:Hwall; [exists s; split; [reflexivity | exact Hs]|].
  destruct b; [exists s; split; [reflexivity | exact Hs]|].
  eexists. split; [reflexivity|]. simpl.
  apply withCurrent_playable; try assumption.
  - apply existsb_false_Forall in Hwall. apply Forall_fmap.
    apply Forall_fmap in Hwall.
    eapply Forall_impl; [apply Forall_and; split; [exact Hwall | exact Hcol]|].
    unfold compose.
    intros block [Hl Hx]. apply Z.ltb_ge in Hl. simpl in *. lia.
  - rewrite length_map. exact Hlen.
Qed.

Lemma moveTetriminoRight_playable (s : State) :
  playable s ->
  exists s' : State, moveTetriminoRight_apply s = Val s' /\ playable s'.
Proof.
  intros Hs. pose proof Hs as (Hg & _ & Hfree & Hcol & Hlen & _).
  unfold moveTetriminoRight_apply.
  destruct (isCollisionDetected_returns (map right (currentTetrimino s)) (grid s))
    as [b Hb]; [apply wellFormed_tall, Hg| |].
  { apply Forall_fmap. eapply Forall_impl; [exact (free_rows _ _ Hfree)|].
    intros block Hy. exact Hy. }
  cbv zeta. rewrite Hb. simpl js_bind.
  destruct (existsb (fun block => Constants.GRID_WIDTH <=? x block)
              (map right (currentTetrimino s)))
    eqn:Hwall; [exists s; split; [reflexivity | exact Hs]|].
  destruct b; [exists s; split; [reflexivity | exact Hs]|].
  eexists. split; [reflexivity|]. simpl.
  apply withCurrent_playable; try assumption.
  - apply existsb_false_Forall in Hwall. apply Forall_fmap.
    apply Forall_fmap in Hwall.
    eapply Forall_impl; [apply Forall_and; split; [exact Hwall | exact Hcol]|].
    unfold compose.
    intros block [Hl Hx]. apply Z.leb_gt in Hl. simpl in *. lia.
  - rewrite length_map. exact Hlen.
Qed.

Lemma Rotate_playable (s s' : State) :
  playable s -> Rotate_apply s = Val s' -> playable s'.
Proof.
  intros Hs. pose proof Hs as (Hg & _ & _ & _ & Hlen & _).
  unfold Rotate_apply. cbv zeta.
  destruct (isCollisionDetected _ _) as [b|] eqn:Hb; [|discriminate]. simpl js_bind.
  destruct (willExceedEdges _ _) as [e|] eqn:He; [|discriminate]. simpl js_bind.
  intros [= <-]. destruct b; [exact Hs|]. destruct e; [exact Hs|]. simpl.
  apply withCurrent_playable; try assumption.
  - unfold willExceedEdges in He.
    destruct (wellFormed_first_row _ Hg) as (row0 & rest & Hgrid).
    rewrite Hgrid in He. change (index (row0 :: rest) 0) with (Some row0) in He.
    injection He as He. apply existsb_false_Forall in He.
    destruct Hg as [_ Hw]. rewrite Hgrid in Hw. apply Forall_inv in Hw.
    eapply Forall_impl; [exact He|]. intros block Hblock. simpl in Hblock.
    apply orb_false_iff in Hblock. destruct Hblock as [Hblock _].
    apply orb_false_iff in Hblock. destruct Hblock as [Hlo Hhi].
    apply Z.ltb_ge in Hlo. apply Z.leb_gt in Hhi. lia.
  - rewrite rotateTetrimino_length. exact Hlen.
Qed.

(** From a playable state the drop loop leaves, nothing throws, and the
    piece ends on the last free position below (or at) its own; the landing
    branch is not taken. *)
Lemma instantDROP_playable (next : Tetrimino) (s : State) :
  playable s -> generated next ->
  exists k : nat,
    (forall j, (j <= k)%nat ->
       isCollisionDetected (descend j (currentTetrimino s)) (grid s) = Val false) /\
    isCollisionDetected (descend (S k) (currentTetrimino s)) (grid s) = Val true /\
    (forall fuel, (S k < fuel)%nat ->
       instantDROP_apply fuel next s
         = Some (Val (withNext next (withCurrent (descend k (currentTetrimino s)) s)))) /\
    playable (withNext next (withCurrent (descend k (currentTetrimino s)) s)).
Proof.
  intros Hs Hnext. pose proof Hs as (Hg & _ & Hfree & Hcol & Hlen & _).
  destruct (currentTetrimino s) as [|block rest] eqn:Hcur; [discriminate Hlen|].
  destruct (dropLoop_stops (grid s) (Z.to_nat (Constants.GRID_HEIGHT - y block))
              (block :: rest)) as (K & _ & Hbefore & Hat & Hloop).
  - apply wellFormed_tall, Hg.
  - apply (free_rows _ _ Hfree).
  - lia.
  - destruct K as [|k]; [simpl in Hat; congruence|].
    exists k. split; [intros j Hj; apply Hbefore; lia|]. split; [exact Hat|].
    assert (Hlast : isCollisionDetected (descend k (block :: rest)) (grid s) = Val false)
      by (apply Hbefore; lia).
    split.
    + intros fuel Hfuel. unfold instantDROP_apply.
      rewrite Hcur, Hloop by lia. rewrite (descend_S k), up_down, Hlast. reflexivity.
    + apply withNext_playable; [|exact Hnext].
      apply withCurrent_playable; try assumption.
      * apply descend_columns, Hcol.
      * rewrite descend_length. exact Hlen.
Qed.

Lemma emptyGrid_incomplete :
  Forall (fun row => ~ complete row) (replicate 20 (replicate 10 false)).
Proof. apply Forall_replicate. apply (emptyRow_incomplete 10). lia. Qed.

Lemma TogglePauseResume_playable (isPaused : bool) (s : State) :
  playable s -> playable (fst (TogglePauseResume_apply isPaused s)).
Proof.
  intros (Hg & Hinc & Hfree & Hcol & Hlen & Hnext & Hlen' & Hscore & Hlevel).
  unfold TogglePauseResume_apply. destruct (negb isPaused); playable_fields.
Qed.

Lemma Restart_playable (c n : Tetrimino) (s : State) :
  generated c -> generated n -> playable s -> playable (Restart_apply c n s).
Proof.
  intros Hc Hn (_ & _ & _ & _ & _ & _ & _ & Hscore & _).
  destruct (generated_inGrid c Hc) as [Hlenc Hinc].
  destruct (generated_inGrid n Hn) as [Hlenn Hinn].
  playable_fields.
  - apply emptyGrid_wellFormed.
  - apply emptyGrid_incomplete.
  - apply inGrid_free_on_empty, Hinc.
  - apply inGrid_columns, Hinc.
Qed.

Lemma initialState_playable (c n : Tetrimino) :
  generated c -> generated n -> playable (initialState c n).
Proof.
  intros Hc Hn.
  destruct (generated_inGrid c Hc) as [Hlenc Hinc].
  destruct (generated_inGrid n Hn) as [Hlenn Hinn].
  playable_fields.
  - apply emptyGrid_wellFormed.
  - apply emptyGrid_incomplete.
  - apply inGrid_free_on_empty, Hinc.
  - apply inGrid_columns, Hinc.
Qed.

Lemma step_playable (c n : Tetrimino) (s s' : State) :
  generated c -> generated n -> step c n s s' -> playable s -> playable s'.
Proof.
  intros Hc Hn Hstep Hs. destruct Hstep as
    [elapsed next s s' Hnext Hrun | s s' Hrun | s s' Hrun | next s s' Hnext Hrun
    | s s' Hrun | fuel next s s' Hnext Hrun | s | isPaused s].
  - destruct (Tick_playable elapsed next s Hs Hnext) as (s1 & Hs1 & Hp & _). congruence.
  - destruct (moveTetriminoLeft_playable s Hs) as (s1 & Hs1 & Hp). congruence.
  - destruct (moveTetriminoRight_playable s Hs) as (s1 & Hs1 & Hp). congruence.
  - rewrite (moveTetriminoDown_is_Tick 0) in Hrun.
    destruct (Tick_playable 0 next s Hs Hnext) as (s1 & Hs1 & Hp & _). congruence.
  - eapply Rotate_playable; eassumption.
  - destruct (instantDROP_playable next s Hs Hnext) as (k & _ & _ & Hdrop & Hp).
    apply (instantDROP_mono _ (Nat.max fuel (S (S k)))) in Hrun; [|lia].
    rewrite Hdrop in Hrun by lia. injection Hrun as <-. exact Hp.
  - apply Restart_playable; assumption.
  - apply TogglePauseResume_playable, Hs.
Qed.

Lemma reachable_is_playable (c n : Tetrimino) (s : State) :
  generated c -> generated n -> reachable c n s -> playable s.
Proof.
  intros Hc Hn Hreach. unfold reachable in Hreach. revert s Hreach.
  apply (rtc_ind_r (fun s => playable s)).
  - apply initialState_playable; assumption.
  - intros s1 s2 _ Hstep IH. exact (step_playable c n s1 s2 Hc Hn Hstep IH).
Qed.

(** ** Invariants of the reachable states *)

Lemma processCollision_highScore (s s' : State) :
  processCollision s = Val s' -> highScore s <= highScore s'.
Proof.
  unfold processCollision. destruct (paused s).
  - intros [= <-]. lia.
  - destruct (clearLines _ _) as [r|]; [|discriminate]. simpl js_bind.
    destruct (isCollisionDetected _ _) as [[|]|]; [| |discriminate];
      simpl; intros [= <-]; simpl; lia.
Qed.

Lemma landing_highScore (next : Tetrimino) (s s' : State) :
  (let* landed := processCollision s in Val (withNext next landed)) = Val s' ->
  highScore s <= highScore s'.
Proof.
  destruct (processCollision s) as [landed|] eqn:Hland; [|discriminate].
  simpl. intros [= <-]. simpl. apply processCollision_highScore, Hland.
Qed.

(** X9. No action lowers the high score: whenever an action returns a
    state, its [highScore] is at least the one before. *)
Theorem step_highScore_monotone (c n : Tetrimino) (s s' : State) :
  step c n s s' -> highScore s <= highScore s'.
Proof.
  intros Hstep. destruct Hstep as
    [elapsed next s s' _ Hrun | s s' Hrun | s s' Hrun | next s s' _ Hrun
    | s s' Hrun | fuel next s s' _ Hrun | s | isPaused s].
  - unfold Tick_apply in Hrun.
    destruct (isCollisionDetected _ _) as [[|]|]; [| |discriminate]; simpl in Hrun.
    + eapply landing_highScore; eassumption.
    + same_highScore.
  - unfold moveTetriminoLeft_apply in Hrun.
    destruct (isCollisionDetected _ _) as [b|]; [|discriminate]; simpl in Hrun.
    same_highScore.
  - unfold moveTetriminoRight_apply in Hrun.
    destruct (isCollisionDetected _ _) as [b|]; [|discriminate]; simpl in Hrun.
    same_highScore.
  - unfold moveTetriminoDown_apply in Hrun.
    destruct (isCollisionDetected _ _) as [[|]|]; [| |discriminate]; simpl in Hrun.
    + eapply landing_highScore; eassumption.
    + same_highScore.
  - unfold Rotate_apply in Hrun.
    destruct (isCollisionDetected _ _) as [b|]; [|discriminate]; simpl in Hrun.
    destruct (willExceedEdges _ _) as [e|]; [|discriminate]; simpl in Hrun.
    same_highScore.
  - unfold instantDROP_apply in Hrun.
    destruct (dropLoop _ _ _) as [[dropped|]|]; try discriminate.
    injection Hrun as Hrun.
    destruct (isCollisionDetected _ _) as [[|]|]; [| |discriminate]; simpl in Hrun.
    + eapply landing_highScore; eassumption.
    + same_highScore.
  - simpl. lia.
  - unfold TogglePauseResume_apply. destruct (negb isPaused); simpl; lia.
Qed.

Lemma step_highScore_monotone_witness :
  highScore (initialState cyanPiece yellowPiece)
  <= highScore (withNext bluePiece
                  (withCurrent (map down cyanPiece) (initialState cyanPiece yellowPiece))).
Proof.
  apply (step_highScore_monotone cyanPiece yellowPiece).
  apply (step_Tick _ _ 0 bluePiece); [|reflexivity].
  exists 2, 50. repeat split; try lia; reflexivity.
Defined.

Section Reachable.

(** The two pieces drawn at start-up come from the generator. *)
Variables c n : Tetrimino.
Hypothesis Hc : generated c.
Hypothesis Hn : generated n.

(** X10. In every reachable state the current piece has four blocks, all
    inside the grid (columns 0 to 9, rows 0 to 19), and it does not collide
    with the grid: [isCollisionDetected] returns [false] on it. *)
Theorem reachable_piece_inside (s : State) :
  reachable c n s ->
  length (currentTetrimino s) = 4%nat /\
  Forall inGrid (currentTetrimino s) /\
  isCollisionDetected (currentTetrimino s) (grid s) = Val false.
Proof.
  intros Hreach.
  destruct (reachable_is_playable c n s Hc Hn Hreach)
    as (_ & _ & Hfree & Hcol & Hlen & _).
  split; [exact Hlen|]. split; [|exact Hfree].
  apply isCollisionDetected_false_rows in Hfree.
  eapply Forall_impl; [apply Forall_and; split; [exact Hcol | exact Hfree]|].
  intros block [Hx Hy]. split; assumption.
Qed.

(** X11. The grid of a reachable state has no complete row: every complete
    row is removed in the transition that completes it. *)
Theorem reachable_no_complete_row (s : State) :
  reachable c n s -> Forall (fun row => ~ complete row) (grid s).
Proof.
  intros Hreach.
  destruct (reachable_is_playable c n s Hc Hn Hreach) as (_ & Hinc & _).
  exact Hinc.
Qed.

(** X12. In every reachable state the score is not negative, the high
    score is at least the score, and the level is at least 1. *)
Theorem reachable_scores (s : State) :
  reachable c n s ->
  (0 <= userScore s <= highScore s) /\ 1 <= userLevel s.
Proof.
  intros Hreach.
  destruct (reachable_is_playable c n s Hc Hn Hreach)
    as (_ & _ & _ & _ & _ & _ & _ & Hscore & Hlevel).
  split; assumption.
Qed.

(** X13. From a reachable state [Tick.apply] and [moveTetriminoDown.apply]
    never throw: given the same generated piece they return the same
    state. *)
Theorem reachable_Tick_returns (elapsed : Z) (next : Tetrimino) (s : State) :
  reachable c n s -> generated next ->
  exists s' : State,
    Tick_apply elapsed next s = Val s' /\
    moveTetriminoDown_apply next s = Val s'.
Proof.
  intros Hreach Hnext.
  destruct (Tick_playable elapsed next s (reachable_is_playable c n s Hc Hn Hreach) Hnext)
    as (s' & Hrun & _).
  exists s'. split; [exact Hrun|].
  rewrite (moveTetriminoDown_is_Tick elapsed). exact Hrun.
Qed.

(** X14. From a reachable state [moveTetriminoLeft.apply] and
    [moveTetriminoRight.apply] never throw. *)
Theorem reachable_moves_return (s : State) :
  reachable c n s ->
  (exists s' : State, moveTetriminoLeft_apply s = Val s') /\
  (exists s' : State, moveTetriminoRight_apply s = Val s').
Proof.
  intros Hreach.
  pose proof (reachable_is_playable c n s Hc Hn Hreach) as Hs.
  destruct (moveTetriminoLeft_playable s Hs) as (l & Hl & _).
  destruct (moveTetriminoRight_playable s Hs) as (r & Hr & _).
  split; eauto.
Qed.

(** X15. From a reachable state the loop of [instantDROP.apply] leaves and
    nothing throws: with enough fuel the drop returns the state whose
    piece is [k] rows lower, on the last position that does not collide,
    with the new preview; grid, score, level, high score and flags are
    untouched, so the landing branch of the drop is never taken. *)
Theorem reachable_instantDROP_returns (next : Tetrimino) (s : State) :
  reachable c n s -> generated next ->
  exists (k : nat) (s' : State),
    (forall j, (j <= k)%nat ->
       isCollisionDetected (descend j (currentTetrimino s)) (grid s) = Val false) /\
    isCollisionDetected (descend (S k) (currentTetrimino s)) (grid s) = Val true /\
    (exists fuel0 : nat, forall fuel, (fuel0 <= fuel)%nat ->
       instantDROP_apply fuel next s = Some (Val s')) /\
    s' = withNext next (withCurrent (descend k (currentTetrimino s)) s).
Proof.
  intros Hreach Hnext.
  destruct (instantDROP_playable next s (reachable_is_playable c n s Hc Hn Hreach) Hnext)
    as (k & Hfree & Hhit & Hdrop & _).
  exists k. eexists. split; [exact Hfree|]. split; [exact Hhit|].
  split; [|reflexivity]. exists (S (S k)). intros fuel Hfuel. apply Hdrop. lia.
Qed.

(** X16. After a drop from a reachable state, the next tick finds the piece
    resting and runs the landing on it: the drop and the tick together do
    what the drop alone does not. *)
Theorem reachable_drop_then_Tick_lands
    (elapsed : Z) (next next' : Tetrimino) (s : State) :
  reachable c n s -> generated next -> generated next' ->
  exists (s1 landed : State),
    (exists fuel0 : nat, forall fuel, (fuel0 <= fuel)%nat ->
       instantDROP_apply fuel next s = Some (Val s1)) /\
    processCollision s1 = Val landed /\
    Tick_apply elapsed next' s1 = Val (withNext next' landed).
Proof.
  intros Hreach Hnext Hnext'.
  destruct (instantDROP_playable next s (reachable_is_playable c n s Hc Hn Hreach) Hnext)
    as (k & _ & Hhit & Hdrop & Hs1).
  destruct (processCollision_playable _ Hs1) as (landed & Hland & _).
  eexists. exists landed. split; [|split; [exact Hland|]].
  - exists (S (S k)). intros fuel Hfuel. apply Hdrop. lia.
  - unfold Tick_apply. cbv zeta.
    change (currentTetrimino (withNext next
              (withCurrent (descend k (currentTetrimino s)) s)))
      with (descend k (currentTetrimino s)).
    rewrite <- descend_S.
    change (grid (withNext next (withCurrent (descend k (currentTetrimino s)) s)))
      with (grid s).
    rewrite Hhit. simpl js_bind. rewrite Hland. reflexivity.
Qed.

End Reachable.

Lemma initialState_reachable (c n : Tetrimino) : reachable c n (initialState c n).
Proof. apply rtc_refl. Qed.

Lemma reachable_piece_inside_witness :
  length cyanPiece = 4%nat /\
  Forall inGrid cyanPiece /\
  isCollisionDetected cyanPiece emptyGrid = Val false.
Proof.
  apply (reachable_piece_inside cyanPiece yellowPiece generated_cyan generated_yellow
           (initialState cyanPiece yellowPiece)).
  apply initialState_reachable.
Defined.

Lemma reachable_no_complete_row_witness :
  Forall (fun row => ~ complete row) emptyGrid.
Proof.
  apply (reachable_no_complete_row cyanPiece yellowPiece generated_cyan generated_yellow
           (initialState cyanPiece yellowPiece)).
  apply initialState_reachable.
Defined.

Lemma reachable_scores_witness :
  (0 <= userScore pausedGame <= highScore pausedGame) /\ 1 <= userLevel pausedGame.
Proof.
  apply (reachable_scores cyanPiece yellowPiece generated_cyan generated_yellow).
  apply rtc_once. apply (step_Toggle _ _ TogglePauseResume_new).
Defined.

Lemma reachable_Tick_returns_witness :
  exists s' : State,
    Tick_apply 7 bluePiece pausedGame = Val s' /\
    moveTetriminoDown_apply bluePiece pausedGame = Val s'.
Proof.
  apply (reachable_Tick_returns cyanPiece yellowPiece generated_cyan generated_yellow).
  - apply rtc_once. apply (step_Toggle _ _ TogglePauseResume_new).
  - exact generated_blue.
Defined.

Lemma reachable_moves_return_witness :
  (exists s' : State,
     moveTetriminoLeft_apply (initialState cyanPiece yellowPiece) = Val s') /\
  (exists s' : State,
     moveTetriminoRight_apply (initialState cyanPiece yellowPiece) = Val s').
Proof.
  apply (reachable_moves_return cyanPiece yellowPiece generated_cyan generated_yellow).
  apply initialState_reachable.
Defined.

Lemma reachable_instantDROP_returns_witness :
  exists (k : nat) (s' : State),
    (forall j, (j <= k)%nat ->
       isCollisionDetected (descend j cyanPiece) emptyGrid = Val false) /\
    isCollisionDetected (descend (S k) cyanPiece) emptyGrid = Val true /\
    (exists fuel0 : nat, forall fuel, (fuel0 <= fuel)%nat ->
       instantDROP_apply fuel bluePiece (initialState cyanPiece yellowPiece)
         = Some (Val s')) /\
    s' = withNext bluePiece
           (withCurrent (descend k cyanPiece) (initialState cyanPiece yellowPiece)).
Proof.
  apply (reachable_instantDROP_returns cyanPiece yellowPiece
           generated_cyan generated_yellow bluePiece
           (initialState cyanPiece yellowPiece)).
  - apply initialState_reachable.
  - exact generated_blue.
Defined.

Lemma reachable_drop_then_Tick_lands_witness :
  exists (s1 landed : State),
    (exists fuel0 : nat, forall fuel, (fuel0 <= fuel)%nat ->
       instantDROP_apply fuel bluePiece (initialState cyanPiece yellowPiece)
         = Some (Val s1)) /\
    processCollision s1 = Val landed /\
    Tick_apply 0 yellowPiece s1 = Val (withNext yellowPiece landed).
Proof.
  apply (reachable_drop_then_Tick_lands cyanPiece yellowPiece
           generated_cyan generated_yellow 0 bluePiece yellowPiece
           (initialState cyanPiece yellowPiece)).
  - apply initialState_reachable.
  - exact generated_blue.
  - exact generated_yellow.
Defined.

(** ** Moves against the walls, and back *)

Lemma right_left (t : Tetrimino) : map right (map left t) = t.
Proof.
  induction t as [|[bx b_y col] t IH]; simpl; [reflexivity|].
  rewrite IH. unfold right, left. simpl. f_equal. f_equal. lia.
Qed.

Lemma left_right (t : Tetrimino) : map left (map right t) = t.
Proof.
  induction t as [|[bx b_y col] t IH]; simpl; [reflexivity|].
  rewrite IH. unfold right, left. simpl. f_equal. f_equal. lia.
Qed.

Lemma withCurrent_back (t : Tetrimino) (s : State) :
  withCurrent (currentTetrimino s) (withCurrent t s) = s.
Proof. destruct s. reflexivity. Qed.

Lemma Exists_existsb {A : Type} (f : A -> bool) (l : list A) :
  Exists (fun a => f a = true) l -> existsb f l = true.
Proof.
  induction 1 as [a l Ha | a l _ IH]; simpl.
  - rewrite Ha. reflexivity.
  - rewrite IH. apply orb_true_r.
Qed.

Lemma columns_not_past_right (t : Tetrimino) :
  Forall (fun block => 0 <= x block < Constants.GRID_WIDTH) t ->
  existsb (fun block => Constants.GRID_WIDTH <=? x block) t = false.
Proof.
  induction 1 as [|block t Hx _ IH]; simpl; [reflexivity|].
  rewrite IH, orb_false_r. apply Z.leb_gt. lia.
Qed.

Lemma columns_not_past_left (t : Tetrimino) :
  Forall (fun block => 0 <= x block < Constants.GRID_WIDTH) t ->
  existsb (fun block => x block <? 0) t = false.
Proof.
  induction 1 as [|block t Hx _ IH]; simpl; [reflexivity|].
  rewrite IH, orb_false_r. apply Z.ltb_ge. lia.
Qed.

Section ReachableMoves.

Variables c n : Tetrimino.
Hypothesis Hc : generated c.
Hypothesis Hn : generated n.

(** X17. A move to the left that was accepted is undone by a move to the
    right, and the other way round: from a reachable state, if
    [moveTetriminoLeft.apply] returns a different state, then
    [moveTetriminoRight.apply] on it returns the first state again. *)
Theorem reachable_left_right_round_trip (s s' : State) :
  reachable c n s ->
  (moveTetriminoLeft_apply s = Val s' -> s' <> s -> moveTetriminoRight_apply s' = Val s) /\
  (moveTetriminoRight_apply s = Val s' -> s' <> s -> moveTetriminoLeft_apply s' = Val s).
Proof.
  intros Hreach.
  destruct (reachable_is_playable c n s Hc Hn Hreach) as (_ & _ & Hfree & Hcol & _).
  split.
  - unfold moveTetriminoLeft_apply. cbv zeta.
    destruct (isCollisionDetected (map left (currentTetrimino s)) (grid s)) as [b|];
      [|discriminate].
    simpl js_bind.
    intros [= <-] Hmoved.
    destruct (_ || b); [congruence|].
    unfold moveTetriminoRight_apply. cbv zeta.
    change (currentTetrimino (withCurrent (map left (currentTetrimino s)) s))
      with (map left (currentTetrimino s)).
    change (grid (withCurrent (map left (currentTetrimino s)) s)) with (grid s).
    rewrite right_left, Hfree, (columns_not_past_right _ Hcol). simpl.
    rewrite withCurrent_back. reflexivity.
  - unfold moveTetriminoRight_apply. cbv zeta.
    destruct (isCollisionDetected (map right (currentTetrimino s)) (grid s)) as [b|];
      [|discriminate].
    simpl js_bind.
    intros [= <-] Hmoved.
    destruct (_ || b); [congruence|].
    unfold moveTetriminoLeft_apply. cbv zeta.
    change (currentTetrimino (withCurrent (map right (currentTetrimino s)) s))
      with (map right (currentTetrimino s)).
    change (grid (withCurrent (map right (currentTetrimino s)) s)) with (grid s).
    rewrite left_right, Hfree, (columns_not_past_left _ Hcol). simpl.
    rewrite withCurrent_back. reflexivity.
Qed.

(** X18. At a wall the move is absorbed: from a reachable state whose piece
    has a block in column 0, [moveTetriminoLeft.apply] returns the state
    unchanged, and with a block in the last column so does
    [moveTetriminoRight.apply]. *)
Theorem reachable_wall_rejects (s : State) :
  reachable c n s ->
  (Exists (fun block => x block = 0) (currentTetrimino s) ->
   moveTetriminoLeft_apply s = Val s) /\
  (Exists (fun block => x block = Constants.GRID_WIDTH - 1) (currentTetrimino s) ->
   moveTetriminoRight_apply s = Val s).
Proof.
  intros Hreach.
  destruct (reachable_is_playable c n s Hc Hn Hreach) as (Hg & _ & Hfree & _).
  pose proof (free_rows _ _ Hfree) as Hrows.
  split; intros Hwall.
  - unfold moveTetriminoLeft_apply. cbv zeta.
    destruct (isCollisionDetected_returns (map left (currentTetrimino s)) (grid s))
      as [b ->]; [apply wellFormed_tall, Hg| |].
    { apply Forall_fmap. eapply Forall_impl; [exact Hrows|]. intros block Hy. exact Hy. }
    simpl js_bind. rewrite Exists_existsb; [reflexivity|].
    apply Exists_fmap. eapply Exists_impl; [exact Hwall|].
    intros block Hx. unfold compose. simpl in *. apply Z.ltb_lt. lia.
  - unfold moveTetriminoRight_apply. cbv zeta.
    destruct (isCollisionDetected_returns (map right (currentTetrimino s)) (grid s))
      as [b ->]; [apply wellFormed_tall, Hg| |].
    { apply Forall_fmap. eapply Forall_impl; [exact Hrows|]. intros block Hy. exact Hy. }
    simpl js_bind. rewrite Exists_existsb; [reflexivity|].
    apply Exists_fmap. eapply Exists_impl; [exact Hwall|].
    intros block Hx. unfold compose. simpl in *. apply Z.leb_le.
    unfold Constants.GRID_WIDTH in *. lia.
Qed.


End ReachableMoves.

Lemma leftWallGame_reachable : reachable cyanPiece yellowPiece leftWallGame.
Proof.
  unfold reachable.
  eapply rtc_l; [apply step_Left; reflexivity|].
  eapply rtc_l; [apply step_Left; reflexivity|].
  eapply rtc_l; [apply step_Left; reflexivity|].
  eapply rtc_l; [apply step_Left; reflexivity|].
  apply rtc_refl.
Qed.

Lemma reachable_left_right_round_trip_witness :
  moveTetriminoRight_apply
    (withCurrent (map left cyanPiece) (initialState cyanPiece yellowPiece))
  = Val (initialState cyanPiece yellowPiece).
Proof.
  apply (proj1 (reachable_left_right_round_trip cyanPiece yellowPiece
                  generated_cyan generated_yellow
                  (initialState cyanPiece yellowPiece)
                  (withCurrent (map left cyanPiece) (initialState cyanPiece yellowPiece))
                  (initialState_reachable cyanPiece yellowPiece))).
  - reflexivity.
  - intros Heq. apply (f_equal currentTetrimino) in Heq. discriminate Heq.
Defined.

Lemma reachable_wall_rejects_witness :
  moveTetriminoLeft_apply leftWallGame = Val leftWallGame.
Proof.
  apply (proj1 (reachable_wall_rejects cyanPiece yellowPiece
                  generated_cyan generated_yellow leftWallGame
                  leftWallGame_reachable)).
  constructor. reflexivity.
Defined.


(** ** The score of a landing *)

Lemma clearLines_gold_flag (g : Grid) (r : Cleared) :
  Forall (fun row => row <> []) g ->
  clearLines g goldTetrimino = Val r ->
  goldLineCleared r = bool_decide (1 <= linesCleared r).
Proof.
  intros Hrows Hr. destruct g as [|row0 g]; [discriminate Hr|].
  rewrite clearLines_eq in Hr. injection Hr as <-. simpl goldLineCleared.
  simpl linesCleared.
  destruct (clearLoop_goldInv (row0 :: g)
              {| rows := []; linesCleared := 0; goldLineCleared := false |} Hrows)
    as [_ Hiff].
  - split; simpl; [lia|]. split; [discriminate | lia].
  - rewrite clearLoop_count in Hiff. simpl linesCleared in Hiff.
    rewrite Z.add_0_l in Hiff.
    destruct (goldLineCleared _).
    + symmetry. apply bool_decide_eq_true_2. apply Hiff. reflexivity.
    + symmetry. apply bool_decide_eq_false_2. intros Hle. apply Hiff in Hle.
      discriminate Hle.
Qed.

Lemma goldLines_length (k : Z) :
  length (filter (fun block => y block = k - 1) goldTetrimino)
  = if decide (k = 1) then 1%nat else 0%nat.
Proof.
  unfold goldTetrimino. rewrite filter_cons, filter_nil. simpl.
  destruct (decide (0 = k - 1)); destruct (decide (k = 1)); try lia; reflexivity.
Qed.

Lemma landing_score (s s' : State) :
  paused s = false ->
  wellFormed (grid s) ->
  processCollision s = Val s' ->
  userScore s' =
    userScore s
    + Z.of_nat (length (filter complete (placeTetrimino (currentTetrimino s) (grid s)))) * 100
    + (if decide (length (filter complete (placeTetrimino (currentTetrimino s) (grid s))) = 1%nat)
       then 200 else 0).
Proof.
  intros Hp Hg. unfold processCollision. rewrite Hp.
  pose proof (placeTetrimino_wellFormed (currentTetrimino s) _ Hg) as Hplaced.
  destruct (clearLines_returns _ goldTetrimino Hplaced) as (r & Hr & _ & _ & Hk).
  rewrite Hr. simpl js_bind.
  rewrite (clearLines_gold_flag _ r (wellFormed_rows_nonempty _ Hplaced) Hr).
  rewrite goldLines_length, Hk.
  set (k := length (filter complete (placeTetrimino (currentTetrimino s) (grid s)))).
  assert (Hscore :
    userScore s + Z.of_nat k * 100
    + (if bool_decide (1 <= Z.of_nat k)
       then Z.of_nat (if decide (Z.of_nat k = 1) then 1%nat else 0%nat) * 200
       else 0)
    = userScore s + Z.of_nat k * 100 + (if decide (k = 1%nat) then 200 else 0)).
  { destruct (decide (k = 1%nat)) as [->|Hne].
    - reflexivity.
    - destruct (decide (Z.of_nat k = 1)); [lia|].
      destruct (bool_decide (1 <= Z.of_nat k)); reflexivity. }
  destruct (isCollisionDetected _ _) as [[|]|]; [| |discriminate];
    simpl; intros [= <-]; simpl; exact Hscore.
Qed.

Lemma landing_highScore_max (s s' : State) :
  paused s = false ->
  processCollision s = Val s' ->
  highScore s' = Z.max (highScore s) (userScore s').
Proof.
  intros Hp. unfold processCollision. rewrite Hp.
  destruct (clearLines _ _) as [r|]; [|discriminate]. simpl js_bind.
  destruct (isCollisionDetected _ _) as [[|]|]; [| |discriminate];
    simpl; intros [= <-]; reflexivity.
Qed.

(** X20. A landing that is not paused, on a 20 x 10 grid and with a score
    of absolute value at most 2^52 and a high score that is a safe integer,
    adds 100 points for each line it clears, and 200 more when it clears
    exactly one line: 300 for one line, 200, 300, 400 for two, three, four;
    the high score becomes the larger of the old high score and the new
    score.  The score before the bonus, the new score and the new high
    score are again safe integers, so the sums of the code are exact.  This
    holds in both branches, game over or not. *)
Theorem processCollision_score (s s' : State) :
  paused s = false ->
  wellFormed (grid s) ->
  Z.abs (userScore s) <= 4503599627370496 ->
  Z.abs (highScore s) <= MAX_SAFE_INTEGER ->
  processCollision s = Val s' ->
  userScore s' =
    userScore s
    + Z.of_nat (length (filter complete (placeTetrimino (currentTetrimino s) (grid s)))) * 100
    + (if decide (length (filter complete (placeTetrimino (currentTetrimino s) (grid s))) = 1%nat)
       then 200 else 0) /\
  highScore s' = Z.max (highScore s) (userScore s') /\
  Z.abs (userScore s
         + Z.of_nat (length (filter complete
                      (placeTetrimino (currentTetrimino s) (grid s)))) * 100)
    <= MAX_SAFE_INTEGER /\
  Z.abs (userScore s') <= MAX_SAFE_INTEGER /\
  Z.abs (highScore s') <= MAX_SAFE_INTEGER.
Proof.
  intros Hp Hg Hscore Hhigh Hland.
  pose proof (landing_score s s' Hp Hg Hland) as Hnew.
  pose proof (landing_highScore_max s s' Hp Hland) as Hmax.
  pose proof (placeTetrimino_wellFormed (currentTetrimino s) _ Hg) as [Hrows _].
  pose proof (length_filter complete (placeTetrimino (currentTetrimino s) (grid s)))
    as Hcount.
  unfold Constants.GRID_HEIGHT in Hrows. unfold MAX_SAFE_INTEGER in *.
  split; [exact Hnew|]. split; [exact Hmax|]. split; [lia|].
  assert (Hsafe : Z.abs (userScore s') <= 9007199254740991).
  { rewrite Hnew.
    destruct (decide (length (filter complete
                (placeTetrimino (currentTetrimino s) (grid s))) = 1%nat)); lia. }
  split; [exact Hsafe|]. rewrite Hmax. lia.
Qed.

Lemma processCollision_score_witness :
  exists s' : State,
    processCollision lastCellGame = Val s' /\
    userScore s' = 800 + 1 * 100 + 200 /\
    highScore s' = 1100 /\
    Z.abs (userScore s') <= MAX_SAFE_INTEGER.
Proof.
  destruct (processCollision lastCellGame) as [s'|] eqn:Hland;
    [|vm_compute in Hland; discriminate Hland].
  destruct (processCollision_score lastCellGame s') as (Hnew & Hmax & _ & Hsafe & _).
  - reflexivity.
  - split; [reflexivity|]. repeat (apply List.Forall_cons; [reflexivity|]).
    apply List.Forall_nil.
  - simpl. lia.
  - unfold MAX_SAFE_INTEGER. simpl. lia.
  - exact Hland.
  - exists s'. split; [reflexivity|].
    assert (Hscore : userScore s' = 800 + 1 * 100 + 200) by (rewrite Hnew; reflexivity).
    split; [exact Hscore|]. split; [|exact Hsafe].
    rewrite Hmax, Hscore. reflexivity.
Defined.

(** ** How many lines a landing can clear *)

Lemma imap_same {A : Type} (f : nat -> A -> A) (l : list A) :
  (forall i a, f i a = a) -> imap f l = l.
Proof.
  revert f. induction l as [|a l IH]; intros f Hf; simpl; [reflexivity|].
  rewrite Hf. f_equal. apply IH. intros i b. apply Hf.
Qed.

Lemma count_cons_bounds (row : list bool) (g : Grid) :
  (length (filter complete g) <= length (filter complete (row :: g))
   <= length (filter complete g) + 1)%nat.
Proof.
  rewrite filter_cons. destruct (decide (complete row)); simpl; lia.
Qed.

(** Rewriting one row of a grid completes at most one row. *)
Lemma count_imap_one (f : nat -> list bool -> list bool) (i0 : nat) (g : Grid) :
  (forall i row, i <> i0 -> f i row = row) ->
  (length (filter complete (imap f g)) <= length (filter complete g) + 1)%nat.
Proof.
  revert f i0. induction g as [|row g IH]; intros f i0 Hf; simpl; [lia|].
  destruct i0 as [|j].
  - rewrite (imap_same (f ∘ S) g) by (intros i a; apply Hf; lia).
    pose proof (count_cons_bounds (f 0%nat row) g).
    pose proof (count_cons_bounds row g). lia.
  - rewrite (Hf 0%nat row) by lia.
    specialize (IH (f ∘ S) j).
    rewrite !filter_cons. destruct (decide (complete row)); simpl.
    + apply le_n_S. apply IH. intros i a Hi. apply Hf. lia.
    + apply IH. intros i a Hi. apply Hf. lia.
Qed.

Lemma placeBlock_count (g : Grid) (block : Block) :
  (length (filter complete (placeBlock g block)) <= length (filter complete g) + 1)%nat.
Proof.
  unfold placeBlock. apply (count_imap_one _ (Z.to_nat (y block))).
  intros i row Hi. destruct (decide (Z.of_nat i = y block)); [lia | reflexivity].
Qed.

Lemma placeTetrimino_count (t : Tetrimino) (g : Grid) :
  (length (filter complete (placeTetrimino t g))
   <= length (filter complete g) + length t)%nat.
Proof.
  unfold placeTetrimino. revert g. induction t as [|block t IH]; intros g; simpl; [lia|].
  specialize (IH (placeBlock g block)). pose proof (placeBlock_count g block). lia.
Qed.

Lemma no_complete_count (g : Grid) :
  Forall (fun row => ~ complete row) g -> length (filter complete g) = 0%nat.
Proof.
  induction 1 as [|row g Hrow _ IH]; [reflexivity|].
  rewrite filter_cons_False by assumption. exact IH.
Qed.

(** X21. Placing a piece on a grid without complete rows completes at most
    as many rows as the piece has blocks. *)
Theorem placeTetrimino_completes_at_most (t : Tetrimino) (g : Grid) :
  Forall (fun row => ~ complete row) g ->
  (length (filter complete (placeTetrimino t g)) <= length t)%nat.
Proof.
  intros Hg. pose proof (placeTetrimino_count t g) as Hcount.
  rewrite (no_complete_count g Hg) in Hcount. exact Hcount.
Qed.

Lemma placeTetrimino_completes_at_most_witness :
  (length (filter complete (placeTetrimino cyanAtFloor (grid lastCellGame))) <= 4)%nat.
Proof.
  apply (placeTetrimino_completes_at_most cyanAtFloor (grid lastCellGame)).
  apply Forall_app. split.
  - apply Forall_replicate. apply (emptyRow_incomplete 10). lia.
  - constructor; [|constructor]. intros Hrow. inversion Hrow. discriminate.
Defined.

(** X22. On a reachable state a landing clears at most four lines: when
    [processCollision] returns, the score has not decreased and has grown
    by at most 400. *)
Theorem reachable_landing_score_bounds (c n : Tetrimino) (s s' : State) :
  generated c -> generated n -> reachable c n s ->
  processCollision s = Val s' ->
  userScore s <= userScore s' <= userScore s + 400.
Proof.
  intros Hc Hn Hreach Hland.
  destruct (reachable_is_playable c n s Hc Hn Hreach)
    as (Hg & Hinc & _ & _ & Hlen & _).
  destruct (paused s) eqn:Hp.
  - unfold processCollision in Hland. rewrite Hp in Hland. injection Hland as <-. lia.
  - rewrite (landing_score s s' Hp Hg Hland).
    pose proof (placeTetrimino_count (currentTetrimino s) (grid s)) as Hcount.
    rewrite (no_complete_count _ Hinc), Hlen in Hcount.
    destruct (decide (length (filter complete
                (placeTetrimino (currentTetrimino s) (grid s))) = 1%nat)) as [->|Hne];
      lia.
Qed.

Lemma reachable_landing_score_bounds_witness :
  exists s' : State,
    processCollision (initialState cyanPiece yellowPiece) = Val s' /\
    (userScore (initialState cyanPiece yellowPiece) <= userScore s'
     <= userScore (initialState cyanPiece yellowPiece) + 400).
Proof.
  eexists. split; [vm_compute; reflexivity|].
  apply (reachable_landing_score_bounds cyanPiece yellowPiece).
  - exact generated_cyan.
  - exact generated_yellow.
  - apply initialState_reachable.
  - vm_compute. reflexivity.
Defined.

(** ** A piece without blocks *)

Lemma dropLoop_no_blocks (fuel : nat) (g : Grid) : dropLoop fuel [] g = None.
Proof. induction fuel as [|fuel IH]; [reflexivity | exact IH]. Qed.

(** X23. On a piece without blocks nothing ever collides, so the loop of
    [instantDROP.apply] never leaves: no amount of fuel gives a result. *)
Theorem instantDROP_no_blocks_diverges (fuel : nat) (next : Tetrimino) (s : State) :
  currentTetrimino s = [] -> instantDROP_apply fuel next s = None.
Proof.
  intros Hcur. unfold instantDROP_apply. rewrite Hcur, dropLoop_no_blocks. reflexivity.
Qed.

Lemma instantDROP_no_blocks_diverges_witness :
  instantDROP_apply 1000 bluePiece (withCurrent [] (initialState cyanPiece yellowPiece))
  = None.
Proof.
  apply instantDROP_no_blocks_diverges. reflexivity.
Defined.

(** ** When collision detection returns and when it throws *)

Lemma existsb_true_Exists {A : Type} (f : A -> bool) (l : list A) :
  existsb f l = true <-> Exists (fun a => f a = true) l.
Proof.
  split; [|apply Exists_existsb].
  induction l as [|a l IH]; simpl; [discriminate|].
  intros H. apply orb_true_iff in H. destruct H as [Ha|Hl].
  - left. exact Ha.
  - right. apply IH, Hl.
Qed.

(** X24. On a grid of [GRID_HEIGHT] rows and a piece without negative row
    indices, [isCollisionDetected] returns, and it answers [true] exactly
    when some block is on row [GRID_HEIGHT] or below, or on an occupied cell
    of the grid; a block outside the columns is on no cell. *)
Theorem isCollisionDetected_answer (t : Tetrimino) (g : Grid) :
  tall g -> Forall (fun block => 0 <= y block) t ->
  exists b : bool,
    isCollisionDetected t g = Val b /\
    (b = true <->
     Exists (fun block => Constants.GRID_HEIGHT <= y block \/ occupied g block = true) t).
Proof.
  intros Hg Ht. eexists. split; [apply isCollisionDetected_defined; assumption|].
  rewrite existsb_true_Exists. split; intros Hex.
  - eapply Exists_impl; [exact Hex|]. intros block Hb. simpl in Hb.
    apply orb_true_iff in Hb. destruct Hb as [Hb|Hb]; [left|right; exact Hb].
    apply bool_decide_eq_true in Hb. exact Hb.
  - eapply Exists_impl; [exact Hex|]. intros block Hb. simpl in *.
    apply orb_true_iff. destruct Hb as [Hb|Hb]; [left|right; exact Hb].
    apply bool_decide_eq_true. exact Hb.
Qed.

Lemma isCollisionDetected_answer_witness :
  exists b : bool,
    isCollisionDetected cyanAtFloor (grid lastCellGame) = Val b /\
    (b = true <->
     Exists (fun block => Constants.GRID_HEIGHT <= y block
                          \/ occupied (grid lastCellGame) block = true) cyanAtFloor).
Proof.
  apply isCollisionDetected_answer.
  - reflexivity.
  - repeat (apply List.Forall_cons; [simpl; lia|]). apply List.Forall_nil.
Defined.

Lemma blockCollides_throws (g : Grid) (block : Block) :
  tall g -> (blockCollides g block = Throws <-> y block < 0).
Proof.
  intros Hg. split; [|apply blockCollides_negative_row].
  intros Hthrow. destruct (decide (0 <= y block)) as [Hy|Hy]; [|lia].
  rewrite (blockCollides_defined g block Hg Hy) in Hthrow. discriminate Hthrow.
Qed.

Lemma some_cons_false {A : Type} (f : A -> js bool) (a : A) (l : list A) :
  some f (a :: l) = Val false <-> f a = Val false /\ some f l = Val false.
Proof.
  simpl. destruct (f a) as [[|]|]; split; try tauto; try discriminate;
    intros [H _]; discriminate H.
Qed.

(** X25. On a grid of [GRID_HEIGHT] rows [isCollisionDetected] throws
    exactly when the piece has a block with a negative row index and no
    block before it, in the order of the piece, collides: a colliding
    block earlier in the piece hides the error. *)
Theorem isCollisionDetected_throws_iff (t : Tetrimino) (g : Grid) :
  tall g ->
  (isCollisionDetected t g = Throws <->
   exists (before : Tetrimino) (block : Block) (after : Tetrimino),
     t = before ++ block :: after /\
     y block < 0 /\
     isCollisionDetected before g = Val false).
Proof.
  intros Hg. unfold isCollisionDetected. split.
  - induction t as [|first t IH]; simpl; [discriminate|].
    destruct (blockCollides g first) as [[|]|] eqn:Hfirst; [discriminate| |].
    + intros Hrest. destruct (IH Hrest) as (before & block & after & -> & Hy & Hfree).
      exists (first :: before), block, after. split; [reflexivity|]. split; [exact Hy|].
      apply some_cons_false. split; assumption.
    + intros _. exists [], first, t. split; [reflexivity|]. split; [|reflexivity].
      apply (blockCollides_throws g first Hg), Hfirst.
  - intros (before & block & after & -> & Hy & Hfree).
    induction before as [|first before IH]; simpl.
    + rewrite (blockCollides_negative_row g block Hy). reflexivity.
    + apply some_cons_false in Hfree. destruct Hfree as [-> Hfree]. apply IH, Hfree.
Qed.

Lemma isCollisionDetected_throws_iff_witness :
  isCollisionDetected [mk "blue" 5 0; mk "blue" 4 (-1); mk "blue" 4 20] emptyGrid = Throws.
Proof.
  apply (isCollisionDetected_throws_iff
           [mk "blue" 5 0; mk "blue" 4 (-1); mk "blue" 4 20] emptyGrid).
  - reflexivity.
  - exists [mk "blue" 5 0], (mk "blue" 4 (-1)), [mk "blue" 4 20].
    split; [reflexivity|]. split; [simpl; lia | reflexivity].
Defined.

(** ** The pause flag *)

Lemma paused_landing_sameBoard (next : Tetrimino) (s s' : State) :
  paused s = true ->
  (let* landed := processCollision s in Val (withNext next landed)) = Val s' ->
  sameBoard s s'.
Proof.
  intros Hp. unfold processCollision. rewrite Hp. simpl.
  intros [= <-]. repeat split.
Qed.

(** X26. While the game is paused no piece lands: a tick, a move down or a
    drop that returns leaves the grid, the score, the level, the high score
    and both flags as they were; only the pieces can differ. *)
Theorem paused_board_frozen (elapsed : Z) (fuel : nat) (next : Tetrimino) (s s' : State) :
  paused s = true ->
  Tick_apply elapsed next s = Val s' \/
  moveTetriminoDown_apply next s = Val s' \/
  instantDROP_apply fuel next s = Some (Val s') ->
  sameBoard s s'.
Proof.
  intros Hp Hrun.
  change (moveTetriminoDown_apply next s) with (Tick_apply elapsed next s) in Hrun.
  assert (Hcases : Tick_apply elapsed next s = Val s' \/
                   instantDROP_apply fuel next s = Some (Val s')) by tauto.
  clear Hrun. destruct Hcases as [Hrun|Hrun].
  - unfold Tick_apply in Hrun.
    destruct (isCollisionDetected _ _) as [[|]|]; [| |discriminate]; simpl in Hrun.
    + eapply paused_landing_sameBoard; eassumption.
    + injection Hrun as <-. repeat split.
  - unfold instantDROP_apply in Hrun.
    destruct (dropLoop _ _ _) as [[dropped|]|]; try discriminate.
    injection Hrun as Hrun.
    destruct (isCollisionDetected _ _) as [[|]|]; [| |discriminate]; simpl in Hrun.
    + eapply paused_landing_sameBoard; eassumption.
    + injection Hrun as <-. repeat split.
Qed.

Lemma paused_board_frozen_witness :
  sameBoard pausedGame (withNext bluePiece (withCurrent (map down cyanPiece) pausedGame)).
Proof.
  apply (paused_board_frozen 0 0 bluePiece pausedGame).
  - reflexivity.
  - left. reflexivity.
Defined.
